(** * mysql_scanner: connection parameters, type mapping, quoting and the
      catalog set, embedded from the C++ sources and checked against the
      specification.

    Layout: the embedding comes first (strings, exceptions, [MySQLUtils],
    [MySQLCatalogSet], the filter translator), the theorems follow. *)

From Stdlib Require Import ZArith Ascii String List Lia Bool DecimalString.
From Stdlib Require Decimal DecimalPos DecimalZ.
From stdpp Require Import base gmap strings list.

Local Open Scope Z_scope.
#[local] Set Warnings "-register-all,-clear-no-such-hyp".

(** ** Characters and strings

    [std::string] is [string]; one [char] is one [ascii]. *)

Definition backslash : ascii := "092"%char.
Definition dquote : ascii := "034"%char.
Definition squote : ascii := "039"%char.
Definition backtick : ascii := "096"%char.

(** [string(1, c)] *)
Definition string1 (c : ascii) : string := String c EmptyString.

(** [StringUtil::CharacterIsSpace] of DuckDB:
    space, tab, newline, vertical tab, form feed, carriage return. *)
Definition CharacterIsSpace (c : ascii) : bool :=
  match c with
  | " " | "009" | "010" | "011" | "012" | "013" => true
  | _ => false
  end%char.

(** [StringUtil::CharacterToLower] and [StringUtil::Lower] of DuckDB: only
    the letters A to Z are folded. *)
Definition CharacterToLower (c : ascii) : ascii :=
  let n := nat_of_ascii c in
  if (Nat.leb 65 n && Nat.leb n 90)%bool then ascii_of_nat (n + 32) else c.

Fixpoint Lower (s : string) : string :=
  match s with
  | EmptyString => EmptyString
  | String c rest => String (CharacterToLower c) (Lower rest)
  end.

(** [haystack.find(needle) != string::npos], which is
    [StringUtil::Contains] of DuckDB. *)
Fixpoint Contains (haystack needle : string) : bool :=
  if String.prefix needle haystack then true
  else match haystack with
       | EmptyString => false
       | String _ rest => Contains rest needle
       end.

(** [StringUtil::Replace(source, from, to)] of DuckDB: scan [source] from the
    left; at every occurrence of [from] put [to] and go on behind the
    occurrence.  [skip] counts the characters of a replaced occurrence that
    are still to be stepped over.  DuckDB raises on an empty [from]; every
    call below passes a one-character [from]. *)
Fixpoint Replace_skip (skip : nat) (source from to : string) : string :=
  match source with
  | EmptyString => EmptyString
  | String c rest =>
      match skip with
      | S k => Replace_skip k rest from to
      | O =>
          if String.prefix from source
          then to +:+ Replace_skip (Nat.pred (String.length from)) rest from to
          else String c (Replace_skip O rest from to)
      end
  end.

Definition Replace (source from to : string) : string :=
  Replace_skip O source from to.

(** ** Exceptions

    A C++ function that can throw returns a [Result]; the exception classes
    are the ones the sources raise, [std_invalid_argument] and
    [std_out_of_range] being those of [std::stoi]. *)

Inductive Exception : Type :=
| InvalidInputException (msg : string)
| InternalException (msg : string)
| NotImplementedException (msg : string)
| IOException (msg : string)
| std_invalid_argument (what : string)
| std_out_of_range (what : string).

Inductive Result (A : Type) : Type :=
| Ok (a : A)
| Throw (e : Exception).
Arguments Ok {A} a.
Arguments Throw {A} e.

#[global] Instance Result_ret : MRet Result := fun A a => Ok a.
#[global] Instance Result_bind : MBind Result := fun A B f m =>
  match m with
  | Ok a => f a
  | Throw e => Throw e
  end.

Definition succeeds {A} (r : Result A) : bool :=
  match r with Ok _ => true | Throw _ => false end.

(** [%d] of the message formats. *)
Definition show_Z (z : Z) : string := NilZero.string_of_int (Z.to_int z).

(** A [%s] argument printed between double quotes. *)
Definition in_dquotes (s : string) : string :=
  string1 dquote +:+ s +:+ string1 dquote.

(** [std::stoi(value)], base 10, as the C++ standard describes it through
    [strtol]: leading white space is skipped, one sign is accepted, the
    longest run of digits is read and whatever follows is ignored.  No digit
    at all raises [std::invalid_argument], a value that does not fit [int]
    raises [std::out_of_range]. *)
Fixpoint skip_spaces (s : string) : string :=
  match s with
  | String c rest => if CharacterIsSpace c then skip_spaces rest else s
  | EmptyString => s
  end.

Definition digit_of (c : ascii) : option Z :=
  let n := nat_of_ascii c in
  if (Nat.leb 48 n && Nat.leb n 57)%bool then Some (Z.of_nat n - 48) else None.

Fixpoint read_digits (s : string) (acc : option Z) : option Z :=
  match s with
  | EmptyString => acc
  | String c rest =>
      match digit_of c with
      | Some d => read_digits rest (Some (10 * default 0 acc + d))
      | None => acc
      end
  end.

Definition INT_MIN : Z := - 2 ^ 31.
Definition INT_MAX : Z := 2 ^ 31 - 1.

Definition stoi (value : string) : Result Z :=
  let s := skip_spaces value in
  let '(negative, s) :=
    match s with
    | String "-"%char rest => (true, rest)
    | String "+"%char rest => (false, rest)
    | _ => (false, s)
    end in
  match read_digits s None with
  | None => Throw (std_invalid_argument "stoi")
  | Some n =>
      let v := if negative then - n else n in
      if ((v <? INT_MIN) || (INT_MAX <? v))%bool
      then Throw (std_out_of_range "stoi")
      else Ok v
  end.

(** ** mysql_utils.hpp, mysql_utils.cpp *)

Module MySQLUtils.

(** *** Quoting *)

Definition EscapeQuotes (text : string) (quote : ascii) : string :=
  Replace text (string1 quote) (string1 backslash +:+ string1 quote).

Definition WriteQuoted (text : string) (quote : ascii) : string :=
  string1 quote +:+ EscapeQuotes text quote +:+ string1 quote.

Definition WriteIdentifier (identifier : string) : string :=
  WriteQuoted identifier backtick.

Definition WriteLiteral (identifier : string) : string :=
  WriteQuoted identifier squote.

(** What the comment in [WriteQuoted] announces, character by character:
    the quote character gets a backslash in front, every other character
    is copied. *)
Fixpoint escape_quote_only (quote : ascii) (text : string) : string :=
  match text with
  | EmptyString => EmptyString
  | String c rest =>
      if Ascii.eqb c quote
      then String backslash (String c (escape_quote_only quote rest))
      else String c (escape_quote_only quote rest)
  end.

(** The escaping as the specification words it: the quote character and
    the backslash both get a backslash in front. *)
Fixpoint escape_quote_and_backslash (quote : ascii) (text : string) : string :=
  match text with
  | EmptyString => EmptyString
  | String c rest =>
      if (Ascii.eqb c quote || Ascii.eqb c backslash)%bool
      then String backslash (String c (escape_quote_and_backslash quote rest))
      else String c (escape_quote_and_backslash quote rest)
  end.

Definition WriteQuoted_spec (text : string) (quote : ascii) : string :=
  string1 quote +:+ escape_quote_and_backslash quote text +:+ string1 quote.

(** *** Connection parameters *)

(** [CLIENT_COMPRESS | CLIENT_IGNORE_SIGPIPE | CLIENT_MULTI_STATEMENTS],
    with the values of mysql.h. *)
Definition CLIENT_COMPRESS : Z := 32.
Definition CLIENT_IGNORE_SIGPIPE : Z := 4096.
Definition CLIENT_MULTI_STATEMENTS : Z := 65536.

Record MySQLConnectionParameters : Type := {
  host : string;
  user : string;
  passwd : string;
  db : string;
  port : Z;
  unix_socket : string;
  workload : string;
  client_flag : Z
}.

(** The default-constructed record. *)
Definition default_parameters : MySQLConnectionParameters :=
  {| host := EmptyString; user := EmptyString; passwd := EmptyString;
     db := EmptyString; port := 0; unix_socket := EmptyString;
     workload := EmptyString;
     client_flag :=
       Z.lor (Z.lor CLIENT_COMPRESS CLIENT_IGNORE_SIGPIPE)
             CLIENT_MULTI_STATEMENTS |}.

(** [result.f = v] for each member. *)
Definition set_host v r :=
  {| host := v; user := user r; passwd := passwd r; db := db r;
     port := port r; unix_socket := unix_socket r; workload := workload r;
     client_flag := client_flag r |}.
Definition set_user v r :=
  {| host := host r; user := v; passwd := passwd r; db := db r;
     port := port r; unix_socket := unix_socket r; workload := workload r;
     client_flag := client_flag r |}.
Definition set_passwd v r :=
  {| host := host r; user := user r; passwd := v; db := db r;
     port := port r; unix_socket := unix_socket r; workload := workload r;
     client_flag := client_flag r |}.
Definition set_db v r :=
  {| host := host r; user := user r; passwd := passwd r; db := v;
     port := port r; unix_socket := unix_socket r; workload := workload r;
     client_flag := client_flag r |}.
Definition set_port v r :=
  {| host := host r; user := user r; passwd := passwd r; db := db r;
     port := v; unix_socket := unix_socket r; workload := workload r;
     client_flag := client_flag r |}.
Definition set_unix_socket v r :=
  {| host := host r; user := user r; passwd := passwd r; db := db r;
     port := port r; unix_socket := v; workload := workload r;
     client_flag := client_flag r |}.
Definition set_workload v r :=
  {| host := host r; user := user r; passwd := passwd r; db := db r;
     port := port r; unix_socket := unix_socket r; workload := v;
     client_flag := client_flag r |}.

(** The process environment, as [std::getenv] sees it. *)
Definition Environment : Type := string -> option string.

Definition invalid_dsn (dsn what : string) : Exception :=
  InvalidInputException ("Invalid dsn " +:+ in_dquotes dsn +:+ " - " +:+ what).

(** [ParseValue(dsn, pos, result)].  The cursor [pos] is kept as the part
    of [dsn] from [pos] on: [dsn[pos]] is its first character, [pos++]
    drops it, [pos >= dsn.size()] is emptiness.  The function gives back
    its boolean, the moved cursor and [result]. *)

(** the [for] loop of the quoted branch, entered behind the opening quote *)
Fixpoint scan_quoted (dsn rest result : string) : Result (string * string) :=
  match rest with
  | EmptyString => Throw (invalid_dsn dsn "unterminated quote")
  | String c rest1 =>
      if Ascii.eqb c dquote then Ok (rest1, result)
      else if Ascii.eqb c backslash then
        match rest1 with
        | EmptyString => Throw (invalid_dsn dsn "backslash at end of dsn")
        | String d rest2 =>
            if (negb (Ascii.eqb d backslash) && negb (Ascii.eqb d dquote))%bool
            then Throw (invalid_dsn dsn
                   ("backslash can only escape \ or " +:+ string1 dquote))
            else scan_quoted dsn rest2 (result +:+ string1 d)
        end
      else scan_quoted dsn rest1 (result +:+ string1 c)
  end.

(** the [for] loop of the unquoted branch *)
Fixpoint scan_unquoted (rest result : string) : string * string :=
  match rest with
  | EmptyString => (rest, result)
  | String c rest1 =>
      if Ascii.eqb c "="%char then (rest, result)
      else if CharacterIsSpace c then (rest, result)
      else scan_unquoted rest1 (result +:+ string1 c)
  end.

Definition ParseValue (dsn rest result : string)
  : Result (bool * string * string) :=
  let rest := skip_spaces rest in
  match rest with
  | EmptyString => Ok (false, rest, result)
  | String c rest1 =>
      if Ascii.eqb c dquote
      then '(rest', result') ← scan_quoted dsn rest1 result;
           Ok (true, rest', result')
      else let '(rest', result') := scan_unquoted rest result in
           Ok (true, rest', result')
  end.

Definition ReadOptionFromEnv (getenv : Environment) (env : string)
    (result : string) : bool * string :=
  match getenv env with
  | None => (false, result)
  | Some res => (true, res)
  end.

Definition PORT_MIN : Z := 0.
Definition PORT_MAX : Z := 65353.

Definition ParsePort (value : string) : Result Z :=
  port_val ← stoi value;
  if ((port_val <? PORT_MIN) || (PORT_MAX <? port_val))%bool
  then Throw (InvalidInputException
         ("Invalid port " +:+ show_Z port_val +:+ " - port must be between "
          +:+ show_Z PORT_MIN +:+ " and " +:+ show_Z PORT_MAX))
  else Ok port_val.

(** The [if]/[else if] chain on the lower-cased key: the member that is
    assigned and the name recorded in [set_options]. *)
Definition assign_option (key value : string)
    (result : MySQLConnectionParameters) (set_options : gset string)
  : Result (MySQLConnectionParameters * gset string) :=
  if String.eqb key "host" then
    Ok (set_host value result, {["host"]} ∪ set_options)
  else if String.eqb key "user" then
    Ok (set_user value result, {["user"]} ∪ set_options)
  else if (String.eqb key "passwd" || String.eqb key "password")%bool then
    Ok (set_passwd value result, {["password"]} ∪ set_options)
  else if (String.eqb key "db" || String.eqb key "database")%bool then
    Ok (set_db value result, {["database"]} ∪ set_options)
  else if String.eqb key "port" then
    port_val ← ParsePort value;
    Ok (set_port port_val result, {["port"]} ∪ set_options)
  else if (String.eqb key "socket" || String.eqb key "unix_socket")%bool then
    Ok (set_unix_socket value result, {["socket"]} ∪ set_options)
  else if String.eqb key "workload" then
    Ok (set_workload value result, {["workload"]} ∪ set_options)
  else
    Throw (InvalidInputException
      ("Unrecognized configuration parameter " +:+ in_dquotes key +:+
       " - expected options are host, user, passwd, db, port, socket, and workload")).

Definition expected_pairs (dsn : string) : Exception :=
  invalid_dsn dsn "expected key=value pairs separated by spaces".

(** The [while (pos < dsn.size())] loop.  Every round moves the cursor, so
    [fuel] above the length of the rest is never used up
    ([parse_options_fuel] below); [None] stands for spent fuel. *)
Fixpoint parse_options (fuel : nat) (dsn rest : string)
    (result : MySQLConnectionParameters) (set_options : gset string)
  : option (Result (MySQLConnectionParameters * gset string)) :=
  match fuel with
  | O => None
  | S fuel =>
      match rest with
      | EmptyString => Some (Ok (result, set_options))
      | _ =>
          match ParseValue dsn rest EmptyString with
          | Throw e => Some (Throw e)
          | Ok (false, _, _) => Some (Ok (result, set_options))
          | Ok (true, rest, key) =>
              match rest with
              | String "="%char rest =>
                  match ParseValue dsn rest EmptyString with
                  | Throw e => Some (Throw e)
                  | Ok (false, _, _) => Some (Throw (expected_pairs dsn))
                  | Ok (true, rest, value) =>
                      match assign_option (Lower key) value result set_options with
                      | Throw e => Some (Throw e)
                      | Ok (result, set_options) =>
                          parse_options fuel dsn rest result set_options
                      end
                  end
              | _ => Some (Throw (expected_pairs dsn))
              end
          end
      end
  end.

(** The first phase of [ParseConnectionParameters]: the options the DSN
    sets.  It does not read the environment. *)
Definition parse_dsn (dsn : string)
  : Result (MySQLConnectionParameters * gset string) :=
  match parse_options (S (String.length dsn)) dsn dsn default_parameters ∅ with
  | Some r => r
  | None => Throw (InternalException "unreachable")
  end.

(** The second phase: members that were not set are read from the
    environment. *)
Definition read_unset_options (getenv : Environment)
    (result : MySQLConnectionParameters) (set_options : gset string)
  : Result MySQLConnectionParameters :=
  let result :=
    if bool_decide ("host" ∉ set_options)
    then set_host (ReadOptionFromEnv getenv "MYSQL_HOST" (host result)).2 result
    else result in
  let result :=
    if bool_decide ("password" ∉ set_options)
    then set_passwd (ReadOptionFromEnv getenv "MYSQL_PWD" (passwd result)).2 result
    else result in
  let result :=
    if bool_decide ("user" ∉ set_options)
    then set_user (ReadOptionFromEnv getenv "MYSQL_USER" (user result)).2 result
    else result in
  let result :=
    if bool_decide ("database" ∉ set_options)
    then set_db (ReadOptionFromEnv getenv "MYSQL_DATABASE" (db result)).2 result
    else result in
  let result :=
    if bool_decide ("socket" ∉ set_options)
    then set_unix_socket
           (ReadOptionFromEnv getenv "MYSQL_UNIX_PORT" (unix_socket result)).2 result
    else result in
  if bool_decide ("port" ∉ set_options)
  then
    match ReadOptionFromEnv getenv "MYSQL_TCP_PORT" EmptyString with
    | (true, port_number) =>
        port_val ← ParsePort port_number;
        Ok (set_port port_val result)
    | (false, _) => Ok result
    end
  else Ok result.

Definition ParseConnectionParameters (getenv : Environment) (dsn : string)
  : Result MySQLConnectionParameters :=
  '(result, set_options) ← parse_dsn dsn;
  read_unset_options getenv result set_options.

(** *** Connect

    The client library is outside the repository: [mysql_init] tells
    whether a handle was allocated, [mysql_real_connect] whether a call
    with the given arguments connects, [mysql_error] is the text of the
    last error.  A [const char *] argument is an [option string], [None]
    for [nullptr]. *)

Record ConnectCall : Type := {
  call_host : option string;
  call_user : option string;
  call_passwd : option string;
  call_db : option string;
  call_port : Z;
  call_unix_socket : option string;
  call_client_flag : Z
}.

(** [s.empty() ? nullptr : s.c_str()] *)
Definition c_str_or_null (s : string) : option string :=
  match s with EmptyString => None | _ => Some s end.

(** [s.find(c) != string::npos] *)
Definition has_char (c : ascii) (s : string) : bool :=
  Contains s (string1 c).

(** [s.substr(1)] *)
Definition substr1 (s : string) : string :=
  match s with EmptyString => EmptyString | String _ rest => rest end.

(** The local [db_with_workload]. *)
Definition db_with_workload (config : MySQLConnectionParameters) : string :=
  let workload_param :=
    match workload config with
    | EmptyString => EmptyString
    | _ => "workload=" +:+ workload config
    end in
  let db_with_workload := host config in
  match workload_param with
  | EmptyString => db_with_workload
  | _ =>
      if has_char "?"%char db_with_workload
      then db_with_workload +:+ "&" +:+ substr1 workload_param
      else db_with_workload +:+ "?" +:+ workload_param
  end.

Definition first_call (config : MySQLConnectionParameters) : ConnectCall :=
  {| call_host := c_str_or_null (host config);
     call_user := c_str_or_null (user config);
     call_passwd := c_str_or_null (passwd config);
     call_db := c_str_or_null (db_with_workload config);
     call_port := port config;
     call_unix_socket := c_str_or_null (unix_socket config);
     call_client_flag := client_flag config |}.

Definition retry_call (config : MySQLConnectionParameters) : ConnectCall :=
  {| call_host := Some "127.0.0.1";
     call_user := c_str_or_null (user config);
     call_passwd := c_str_or_null (passwd config);
     call_db := c_str_or_null (db_with_workload config);
     call_port := port config;
     call_unix_socket := c_str_or_null (unix_socket config);
     call_client_flag := client_flag config |}.

Section Connect.
Variable mysql_init : bool.
Variable mysql_real_connect : ConnectCall -> bool.
Variable mysql_error : string.

Definition connect_failure (dsn : string) : Exception :=
  IOException ("Failed to connect to MySQL database with parameters "
               +:+ in_dquotes dsn +:+ ": " +:+ mysql_error).

(** [Connect(dsn)]: the calls made to [mysql_real_connect], in order,
    and the outcome ([Ok tt] for the connected handle). *)
Definition Connect (getenv : Environment) (dsn : string)
  : list ConnectCall * Result unit :=
  if negb mysql_init then ([], Throw (IOException "Failure in mysql_init"))
  else
    match ParseConnectionParameters getenv dsn with
    | Throw e => ([], Throw e)
    | Ok config =>
        if mysql_real_connect (first_call config)
        then ([first_call config], Ok tt)
        else if (String.eqb (host config) EmptyString
                 || String.eqb (host config) "localhost")%bool
        then
          if mysql_real_connect (retry_call config)
          then ([first_call config; retry_call config], Ok tt)
          else ([first_call config; retry_call config],
                Throw (connect_failure dsn))
        else ([first_call config], Throw (connect_failure dsn))
    end.
End Connect.

(** *** Logical types

    [LogicalTypeId] and [LogicalType] belong to DuckDB.  The kinds are the
    ones of its enumeration; a [LogicalType] is a kind, with the extra
    information of the parameterised kinds. *)

Inductive LogicalTypeId : Type :=
| INVALID | SQLNULL | BOOLEAN | TINYINT | SMALLINT | INTEGER | BIGINT
| DATE | TIME | TIMESTAMP_SEC | TIMESTAMP_MS | TIMESTAMP | TIMESTAMP_NS
| DECIMAL | FLOAT | DOUBLE | CHAR | VARCHAR | BLOB | INTERVAL
| UTINYINT | USMALLINT | UINTEGER | UBIGINT | TIMESTAMP_TZ | TIME_TZ
| BIT | HUGEINT | UUID | STRUCT | LIST | MAP | ENUM | UNION.

Inductive LogicalType : Type :=
| Plain (id : LogicalTypeId)
| DecimalType (width scale : Z)
| ListType (child : LogicalType)
| StructType (children : list (string * LogicalType))
| MapType (key value : LogicalType)
| UnionType (members : list (string * LogicalType)).

(** [input.id()] *)
Definition id (input : LogicalType) : LogicalTypeId :=
  match input with
  | Plain i => i
  | DecimalType _ _ => DECIMAL
  | ListType _ => LIST
  | StructType _ => STRUCT
  | MapType _ _ => MAP
  | UnionType _ => UNION
  end.

Definition LogicalTypeId_name (i : LogicalTypeId) : string :=
  match i with
  | INVALID => "INVALID" | SQLNULL => "NULL" | BOOLEAN => "BOOLEAN"
  | TINYINT => "TINYINT" | SMALLINT => "SMALLINT" | INTEGER => "INTEGER"
  | BIGINT => "BIGINT" | DATE => "DATE" | TIME => "TIME"
  | TIMESTAMP_SEC => "TIMESTAMP_S" | TIMESTAMP_MS => "TIMESTAMP_MS"
  | TIMESTAMP => "TIMESTAMP" | TIMESTAMP_NS => "TIMESTAMP_NS"
  | DECIMAL => "DECIMAL" | FLOAT => "FLOAT" | DOUBLE => "DOUBLE"
  | CHAR => "CHAR" | VARCHAR => "VARCHAR" | BLOB => "BLOB"
  | INTERVAL => "INTERVAL" | UTINYINT => "UTINYINT"
  | USMALLINT => "USMALLINT" | UINTEGER => "UINTEGER" | UBIGINT => "UBIGINT"
  | TIMESTAMP_TZ => "TIMESTAMP WITH TIME ZONE"
  | TIME_TZ => "TIME WITH TIME ZONE" | BIT => "BIT" | HUGEINT => "HUGEINT"
  | UUID => "UUID" | STRUCT => "STRUCT" | LIST => "LIST" | MAP => "MAP"
  | ENUM => "ENUM" | UNION => "UNION"
  end.

(** [input.ToString()] of DuckDB, used in messages and as the default
    spelling. *)
Fixpoint ToString (input : LogicalType) : string :=
  let members :=
    fix members (l : list (string * LogicalType)) : string :=
      match l with
      | [] => EmptyString
      | [(n, t)] => n +:+ " " +:+ ToString t
      | (n, t) :: l' => n +:+ " " +:+ ToString t +:+ ", " +:+ members l'
      end in
  match input with
  | Plain i => LogicalTypeId_name i
  | DecimalType w s => "DECIMAL(" +:+ show_Z w +:+ "," +:+ show_Z s +:+ ")"
  | ListType c => ToString c +:+ "[]"
  | StructType cs => "STRUCT(" +:+ members cs +:+ ")"
  | MapType k v => "MAP(" +:+ ToString k +:+ ", " +:+ ToString v +:+ ")"
  | UnionType ms => "UNION(" +:+ members ms +:+ ")"
  end.

Definition TypeToString (input : LogicalType) : string :=
  match id input with
  | VARCHAR => "TEXT"
  | UTINYINT => "TINYINT UNSIGNED"
  | USMALLINT => "SMALLINT UNSIGNED"
  | UINTEGER => "INTEGER UNSIGNED"
  | UBIGINT => "BIGINT UNSIGNED"
  | TIMESTAMP => "DATETIME"
  | TIMESTAMP_TZ => "TIMESTAMP"
  | _ => ToString input
  end.

Record MySQLTypeData : Type := {
  type_name : string;
  column_type : string;
  precision : Z;
  scale : Z
}.

(** The part of [ClientContext] that is read: the current settings.  Both
    settings looked up below are registered as booleans, so
    [TryGetCurrentSetting] followed by [BooleanValue::Get] is a lookup
    that gives a boolean when the setting is there ([None]: the setting
    is not known to the session). *)
Definition ClientContext : Type := string -> option bool.

Definition name_in (n : string) (l : list string) : bool :=
  existsb (String.eqb n) l.

Definition TypeToLogicalType (context : ClientContext)
    (type_info : MySQLTypeData) : LogicalType :=
  let tn := type_name type_info in
  if String.eqb tn "tinyint" then
    let after_tinyint1 :=
      if Contains (column_type type_info) "unsigned"
      then Plain UTINYINT else Plain TINYINT in
    if String.eqb (column_type type_info) "tinyint(1)" then
      match context "mysql_tinyint1_as_boolean" with
      | Some tinyint_as_boolean =>
          if tinyint_as_boolean then Plain BOOLEAN else after_tinyint1
      | None => after_tinyint1
      end
    else after_tinyint1
  else if String.eqb tn "smallint" then
    if Contains (column_type type_info) "unsigned"
    then Plain USMALLINT else Plain SMALLINT
  else if (String.eqb tn "mediumint" || String.eqb tn "int")%bool then
    if Contains (column_type type_info) "unsigned"
    then Plain UINTEGER else Plain INTEGER
  else if String.eqb tn "bigint" then
    if Contains (column_type type_info) "unsigned"
    then Plain UBIGINT else Plain BIGINT
  else if String.eqb tn "float" then Plain FLOAT
  else if String.eqb tn "double" then Plain DOUBLE
  else if String.eqb tn "date" then Plain DATE
  else if String.eqb tn "time" then Plain VARCHAR
  else if String.eqb tn "timestamp" then Plain TIMESTAMP_TZ
  else if String.eqb tn "year" then Plain INTEGER
  else if String.eqb tn "datetime" then Plain TIMESTAMP
  else if String.eqb tn "decimal" then
    if ((0 <? precision type_info) && (precision type_info <=? 38))%bool
    then DecimalType (precision type_info) (scale type_info)
    else Plain DOUBLE
  else if String.eqb tn "json" then Plain VARCHAR
  else if String.eqb tn "enum" then Plain VARCHAR
  else if String.eqb tn "set" then Plain VARCHAR
  else if String.eqb tn "bit" then
    if String.eqb (column_type type_info) "bit(1)" then
      match context "mysql_bit1_as_boolean" with
      | Some bit_as_boolean =>
          if bit_as_boolean then Plain BOOLEAN else Plain BLOB
      | None => Plain BLOB
      end
    else Plain BLOB
  else if name_in tn ["blob"; "binary"; "varbinary"; "geometry"; "point";
                      "linestring"; "polygon"; "multipoint";
                      "multilinestring"; "multipolygon"; "geomcollection"]
  then Plain BLOB
  else if name_in tn ["varchar"; "mediumtext"; "longtext"; "text"; "enum";
                      "char"]
  then Plain VARCHAR
  else Plain VARCHAR.

(** The first branch as the specification words it: boolean for a
    [tinyint] declared with display width 1 (the width is the number in
    parentheses behind the type name, whatever modifier follows) when the
    setting is on, else the unsigned or signed tinyint. *)
Definition declared_width_1 (column_type : string) : bool :=
  String.prefix "tinyint(1)" column_type.

Definition tinyint_spec (context : ClientContext) (column_type : string)
  : LogicalType :=
  if (declared_width_1 column_type
      && bool_decide (context "mysql_tinyint1_as_boolean" = Some true))%bool
  then Plain BOOLEAN
  else if Contains column_type "unsigned" then Plain UTINYINT
  else Plain TINYINT.

(** [enum_field_types], [MYSQL_FIELD] and the flag bits belong to the client
    library (mysql.h, mysql_com.h); of a field, the members that
    [FieldToLogicalType] reads. *)
Inductive enum_field_types : Type :=
| MYSQL_TYPE_DECIMAL | MYSQL_TYPE_TINY | MYSQL_TYPE_SHORT | MYSQL_TYPE_LONG
| MYSQL_TYPE_FLOAT | MYSQL_TYPE_DOUBLE | MYSQL_TYPE_NULL
| MYSQL_TYPE_TIMESTAMP | MYSQL_TYPE_LONGLONG | MYSQL_TYPE_INT24
| MYSQL_TYPE_DATE | MYSQL_TYPE_TIME | MYSQL_TYPE_DATETIME | MYSQL_TYPE_YEAR
| MYSQL_TYPE_NEWDATE | MYSQL_TYPE_VARCHAR | MYSQL_TYPE_BIT
| MYSQL_TYPE_TIMESTAMP2 | MYSQL_TYPE_DATETIME2 | MYSQL_TYPE_TIME2
| MYSQL_TYPE_TYPED_ARRAY | MYSQL_TYPE_INVALID | MYSQL_TYPE_BOOL
| MYSQL_TYPE_JSON | MYSQL_TYPE_NEWDECIMAL | MYSQL_TYPE_ENUM | MYSQL_TYPE_SET
| MYSQL_TYPE_TINY_BLOB | MYSQL_TYPE_MEDIUM_BLOB | MYSQL_TYPE_LONG_BLOB
| MYSQL_TYPE_BLOB | MYSQL_TYPE_VAR_STRING | MYSQL_TYPE_STRING
| MYSQL_TYPE_GEOMETRY.

Record MYSQL_FIELD : Type := {
  field_type : enum_field_types;
  max_length : Z;
  decimals : Z;
  flags : Z
}.

Definition UNSIGNED_FLAG : Z := 32.
Definition BINARY_FLAG : Z := 128.
Definition NUM_FLAG : Z := 32768.

(** [flags & FLAG] as a condition. *)
Definition has_flag (flags FLAG : Z) : bool :=
  negb (Z.land flags FLAG =? 0).

(** The [switch] of [FieldToLogicalType]: the type name, and the precision
    and scale, which are assigned in the decimal case alone (they are read in
    that case alone; 0 stands for the unassigned members). *)
Definition field_type_data (field : MYSQL_FIELD) : string * Z * Z :=
  match field_type field with
  | MYSQL_TYPE_TINY => ("tinyint", 0, 0)
  | MYSQL_TYPE_SHORT => ("smallint", 0, 0)
  | MYSQL_TYPE_INT24 => ("mediumint", 0, 0)
  | MYSQL_TYPE_LONG => ("int", 0, 0)
  | MYSQL_TYPE_LONGLONG => ("bigint", 0, 0)
  | MYSQL_TYPE_FLOAT => ("float", 0, 0)
  | MYSQL_TYPE_DOUBLE => ("double", 0, 0)
  | MYSQL_TYPE_DECIMAL | MYSQL_TYPE_NEWDECIMAL =>
      ("decimal", max_length field - 2, decimals field)
  | MYSQL_TYPE_TIMESTAMP => ("timestamp", 0, 0)
  | MYSQL_TYPE_DATE => ("date", 0, 0)
  | MYSQL_TYPE_TIME => ("time", 0, 0)
  | MYSQL_TYPE_DATETIME => ("datetime", 0, 0)
  | MYSQL_TYPE_YEAR => ("year", 0, 0)
  | MYSQL_TYPE_BIT => ("bit", 0, 0)
  | MYSQL_TYPE_GEOMETRY => ("geometry", 0, 0)
  | MYSQL_TYPE_NULL => ("null", 0, 0)
  | MYSQL_TYPE_SET => ("set", 0, 0)
  | MYSQL_TYPE_ENUM => ("enum", 0, 0)
  | MYSQL_TYPE_BLOB | MYSQL_TYPE_STRING | MYSQL_TYPE_VAR_STRING =>
      if has_flag (flags field) BINARY_FLAG
      then ("blob", 0, 0) else ("varchar", 0, 0)
  | _ => ("__unknown_type", 0, 0)
  end.

(** The raw column-type string that [FieldToLogicalType] puts together. *)
Definition field_column_type (field : MYSQL_FIELD) : string :=
  let column_type := (field_type_data field).1.1 in
  let column_type :=
    if negb (max_length field =? 0)
    then column_type +:+ "(" +:+ show_Z (max_length field) +:+ ")"
    else column_type in
  if (has_flag (flags field) UNSIGNED_FLAG
      && has_flag (flags field) NUM_FLAG)%bool
  then column_type +:+ " unsigned"
  else column_type.

Definition FieldToLogicalType (context : ClientContext) (field : MYSQL_FIELD)
  : LogicalType :=
  let '(type_name, precision, scale) := field_type_data field in
  TypeToLogicalType context
    {| type_name := type_name; column_type := field_column_type field;
       precision := precision; scale := scale |}.

Definition ToMySQLType (input : LogicalType) : Result LogicalType :=
  match id input with
  | BOOLEAN | SMALLINT | INTEGER | BIGINT | TINYINT
  | UTINYINT | USMALLINT | UINTEGER | UBIGINT
  | FLOAT | DOUBLE | BLOB | DATE | DECIMAL
  | TIMESTAMP | TIMESTAMP_TZ | VARCHAR => Ok input
  | LIST =>
      Throw (NotImplementedException
        ("MySQL does not support arrays - unsupported type "
         +:+ in_dquotes (ToString input)))
  | STRUCT | MAP | UNION =>
      Throw (NotImplementedException
        ("MySQL does not support composite types - unsupported type "
         +:+ in_dquotes (ToString input)))
  | TIMESTAMP_SEC | TIMESTAMP_MS | TIMESTAMP_NS => Ok (Plain TIMESTAMP)
  | HUGEINT => Ok (Plain DOUBLE)
  | _ => Ok (Plain VARCHAR)
  end.

(** *** Notions for the statements about the connection parameters *)

(** A member whose name is not in [set_options] still has the value it
    started with. *)
Definition untouched (set_options : gset string)
    (before after : MySQLConnectionParameters) : Prop :=
  ("host" ∉ set_options -> host after = host before) /\
  ("user" ∉ set_options -> user after = user before) /\
  ("password" ∉ set_options -> passwd after = passwd before) /\
  ("database" ∉ set_options -> db after = db before) /\
  ("port" ∉ set_options -> port after = port before) /\
  ("socket" ∉ set_options -> unix_socket after = unix_socket before) /\
  ("workload" ∉ set_options -> workload after = workload before) /\
  client_flag after = client_flag before.

(** The value of an environment variable, empty when it is not there. *)
Definition env_or_empty (getenv : Environment) (var : string) : string :=
  default EmptyString (getenv var).

(** The record that [ParseConnectionParameters] gives back, member by
    member: the value of the DSN phase for a member the DSN sets, the
    environment variable for one it does not set, and the default where there
    is no variable. *)
Definition filled (getenv : Environment)
    (explicit : MySQLConnectionParameters) (set_options : gset string)
    (port_val : Z) : MySQLConnectionParameters :=
  {| host := if bool_decide ("host" ∈ set_options) then host explicit
             else env_or_empty getenv "MYSQL_HOST";
     user := if bool_decide ("user" ∈ set_options) then user explicit
             else env_or_empty getenv "MYSQL_USER";
     passwd := if bool_decide ("password" ∈ set_options) then passwd explicit
               else env_or_empty getenv "MYSQL_PWD";
     db := if bool_decide ("database" ∈ set_options) then db explicit
           else env_or_empty getenv "MYSQL_DATABASE";
     port := port_val;
     unix_socket :=
       if bool_decide ("socket" ∈ set_options) then unix_socket explicit
       else env_or_empty getenv "MYSQL_UNIX_PORT";
     workload := workload explicit;
     client_flag := client_flag default_parameters |}.

Definition filled_port (getenv : Environment)
    (explicit : MySQLConnectionParameters) (set_options : gset string)
  : Result Z :=
  if bool_decide ("port" ∈ set_options) then Ok (port explicit)
  else match getenv "MYSQL_TCP_PORT" with
       | Some port_number => ParsePort port_number
       | None => Ok 0%Z
       end.

(** What [Connect] puts behind the host: nothing without a workload tag, the
    tag behind a question mark, or, when the host has a question mark
    already, an ampersand and the parameter short of its first letter. *)
Definition workload_suffix (config : MySQLConnectionParameters) : string :=
  match workload config with
  | EmptyString => EmptyString
  | w =>
      if has_char "?"%char (host config)
      then "&orkload=" +:+ w
      else "?workload=" +:+ w
  end.

(** *** Notions for the statements about single values and pairs *)

(** A character that an unquoted value runs over. *)
Definition plain (c : ascii) : bool :=
  (negb (Ascii.eqb c "="%char) && negb (CharacterIsSpace c))%bool.

Fixpoint all_plain (s : string) : bool :=
  match s with
  | EmptyString => true
  | String c rest => (plain c && all_plain rest)%bool
  end.

(** A string that stands in a DSN as an unquoted key or value: not empty,
    not opened by a double quote, without white space or equality sign. *)
Definition unquoted (s : string) : bool :=
  match s with
  | EmptyString => false
  | String c _ => (negb (Ascii.eqb c dquote) && all_plain s)%bool
  end.

Fixpoint all_space (s : string) : bool :=
  match s with
  | EmptyString => true
  | String c rest => (CharacterIsSpace c && all_space rest)%bool
  end.

(** The way to write any value between double quotes: a backslash goes in
    front of every backslash and every double quote. *)
Fixpoint dsn_escape (value : string) : string :=
  match value with
  | EmptyString => EmptyString
  | String c rest =>
      if (Ascii.eqb c backslash || Ascii.eqb c dquote)%bool
      then String backslash (String c (dsn_escape rest))
      else String c (dsn_escape rest)
  end.

Definition dsn_quote (value : string) : string :=
  String dquote (dsn_escape value +:+ string1 dquote).

(** The rest of the DSN behind an unquoted value: nothing, white space or
    the equality sign. *)
Definition stops (rest : string) : bool :=
  match rest with
  | EmptyString => true
  | String c _ => negb (plain c)
  end.

(** A value as it stands in a DSN: unquoted, or between double quotes. *)
Definition written_as (value text : string) : Prop :=
  (unquoted text = true /\ text = value) \/ text = dsn_quote value.

(** A port that [ParsePort] lets through. *)
Definition port_in_range (p : Z) : Prop := 0 <= p <= 65353.

(** The ten spellings of the seven keys. *)
Definition recognized_key (key : string) : bool :=
  name_in key ["host"; "user"; "passwd"; "password"; "db"; "database"; "port";
               "socket"; "unix_socket"; "workload"].

(** *** Notions for the statements about whole DSNs *)

(** A key or a value as it stands in a DSN, unquoted or between double
    quotes, with the string it stands for. *)
Inductive Token : Type :=
| Unquoted (text : string)
| Quoted (text : string).

Definition token_value (t : Token) : string :=
  match t with Unquoted s => s | Quoted s => s end.

Definition token_text (t : Token) : string :=
  match t with Unquoted s => s | Quoted s => dsn_quote s end.

Definition token_ok (t : Token) : bool :=
  match t with Unquoted s => unquoted s | Quoted _ => true end.

(** A pair as it stands in a DSN: white space, the key, the equality sign,
    white space, the value. *)
Record WrittenPair : Type := {
  before_key : string;
  key_token : Token;
  before_value : string;
  value_token : Token
}.

Definition pair_key (p : WrittenPair) : string := token_value (key_token p).
Definition pair_value (p : WrittenPair) : string :=
  token_value (value_token p).

Definition pair_text (p : WrittenPair) : string :=
  before_key p +:+ token_text (key_token p) +:+ "=" +:+
  before_value p +:+ token_text (value_token p).

Definition pair_ok (p : WrittenPair) : bool :=
  (all_space (before_key p) && token_ok (key_token p) &&
   all_space (before_value p) && token_ok (value_token p))%bool.

(** What stands behind a pair: behind an unquoted value, white space or
    nothing; behind a quoted value, anything. *)
Definition separated (p : WrittenPair) (rest : string) : bool :=
  match value_token p with
  | Quoted _ => true
  | Unquoted _ =>
      match rest with
      | EmptyString => true
      | String c _ => CharacterIsSpace c
      end
  end.

Fixpoint pairs_text (pairs : list WrittenPair) : string :=
  match pairs with
  | [] => EmptyString
  | p :: pairs => pair_text p +:+ pairs_text pairs
  end.

Fixpoint pairs_ok (pairs : list WrittenPair) (rest : string) : bool :=
  match pairs with
  | [] => true
  | p :: pairs =>
      (pair_ok p && separated p (pairs_text pairs +:+ rest) &&
       pairs_ok pairs rest)%bool
  end.

(** A DSN: pairs, and white space behind the last one. *)
Definition dsn_text (pairs : list WrittenPair) (trailing : string) : string :=
  pairs_text pairs +:+ trailing.

Definition well_written (pairs : list WrittenPair) (trailing : string) : bool :=
  (pairs_ok pairs trailing && all_space trailing)%bool.

(** The value that the pairs give to the member with the given spellings of
    its key: that of the last pair whose key, in lower case, is one of
    them. *)
Fixpoint dsn_value (spellings : list string) (pairs : list WrittenPair)
  : option string :=
  match pairs with
  | [] => None
  | p :: pairs =>
      match dsn_value spellings pairs with
      | Some v => Some v
      | None =>
          if name_in (Lower (pair_key p)) spellings
          then Some (pair_value p) else None
      end
  end.

(** The value of a member that has an environment variable: that of the
    DSN when it gives one, else that of the variable, else empty. *)
Definition dsn_or_env (getenv : Environment) (pairs : list WrittenPair)
    (spellings : list string) (var : string) : string :=
  match dsn_value spellings pairs with
  | Some v => v
  | None => env_or_empty getenv var
  end.

(** A pair that the loop takes: the key is known, and the value of a port
    is a port. *)
Definition pair_accepted (p : WrittenPair) : bool :=
  (recognized_key (Lower (pair_key p)) &&
   (if String.eqb (Lower (pair_key p)) "port"
    then succeeds (ParsePort (pair_value p)) else true))%bool.

(** The assignments of the loop, one pair after the other. *)
Fixpoint assign_all (pairs : list WrittenPair)
    (result : MySQLConnectionParameters) (set_options : gset string)
  : Result (MySQLConnectionParameters * gset string) :=
  match pairs with
  | [] => Ok (result, set_options)
  | p :: pairs =>
      '(result, set_options) ←
        assign_option (Lower (pair_key p)) (pair_value p) result set_options;
      assign_all pairs result set_options
  end.

(** The type names that [TypeToLogicalType] tells apart. *)
Definition integer_type_names : list string :=
  ["tinyint"; "smallint"; "mediumint"; "int"; "bigint"].

(** The kinds that [ToMySQLType] hands back unchanged. *)
Definition passes_unchanged (i : LogicalTypeId) : bool :=
  match i with
  | BOOLEAN | SMALLINT | INTEGER | BIGINT | TINYINT
  | UTINYINT | USMALLINT | UINTEGER | UBIGINT
  | FLOAT | DOUBLE | BLOB | DATE | DECIMAL
  | TIMESTAMP | TIMESTAMP_TZ | VARCHAR => true
  | _ => false
  end.

(** *** Notions for the statements about fields *)

(** The character does not occur in the string. *)
Fixpoint lacks (c : ascii) (s : string) : bool :=
  match s with
  | EmptyString => true
  | String d rest => (negb (Ascii.eqb d c) && lacks c rest)%bool
  end.

(** [flags & UNSIGNED_FLAG && flags & NUM_FLAG] *)
Definition unsigned_number (field : MYSQL_FIELD) : bool :=
  (has_flag (flags field) UNSIGNED_FLAG && has_flag (flags field) NUM_FLAG)%bool.

Definition is_tiny (t : enum_field_types) : bool :=
  match t with MYSQL_TYPE_TINY => true | _ => false end.

(** The signed and the unsigned kind of the integer fields. *)
Definition integer_kinds (t : enum_field_types)
  : option (LogicalTypeId * LogicalTypeId) :=
  match t with
  | MYSQL_TYPE_TINY => Some (TINYINT, UTINYINT)
  | MYSQL_TYPE_SHORT => Some (SMALLINT, USMALLINT)
  | MYSQL_TYPE_INT24 | MYSQL_TYPE_LONG => Some (INTEGER, UINTEGER)
  | MYSQL_TYPE_LONGLONG => Some (BIGINT, UBIGINT)
  | _ => None
  end.

End MySQLUtils.


(** ** storage/mysql_catalog_set.cpp *)

Module MySQLCatalogSet.

(** [CatalogType] and [CatalogTypeToString] belong to DuckDB; the kinds a
    MySQL catalog holds. *)
Inductive CatalogType : Type :=
| TABLE_ENTRY | SCHEMA_ENTRY | VIEW_ENTRY | INDEX_ENTRY.

Definition CatalogTypeToString (type : CatalogType) : string :=
  match type with
  | TABLE_ENTRY => "Table"
  | SCHEMA_ENTRY => "Schema"
  | VIEW_ENTRY => "View"
  | INDEX_ENTRY => "Index"
  end.

Inductive OnEntryNotFound : Type := THROW_EXCEPTION | RETURN_NULL.

(** A [CatalogEntry] of DuckDB, as far as the set looks at it.  [oid] tells
    two objects of one name apart, as the address behind the [unique_ptr]
    does. *)
Record CatalogEntry : Type := {
  name : string;
  type : CatalogType;
  oid : nat
}.

#[global] Instance CatalogType_eq_dec : EqDecision CatalogType.
Proof. solve_decision. Defined.
#[global] Instance CatalogEntry_eq_dec : EqDecision CatalogEntry.
Proof. solve_decision. Defined.

Record DropInfo : Type := {
  info_type : CatalogType;
  info_name : string;
  info_if_not_found : OnEntryNotFound;
  info_cascade : bool
}.

(** What a call reaches through its [ClientContext]: the run of the
    discovery procedure [LoadEntries] that the call would start, and the query
    channel of the active transaction.

    [LoadEntries] is pure virtual and the members of the set are private, so
    a run reaches the set through [CreateEntry] alone: it is the list of the
    entries it creates, in order, and the exception it ends with, if any.
    [Query] gives the exception the remote statement raises, if any. *)
Record ClientContext : Type := {
  discovered : list CatalogEntry;
  discovery_error : option Exception;
  Query : string -> option Exception
}.

(** [m.insert(make_pair(k, v))]: an element that is there is kept. *)
Definition map_insert_new {V} (k : string) (v : V) (m : gmap string V)
  : gmap string V :=
  match m !! k with
  | Some _ => m
  | None => <[k := v]> m
  end.

(** [case_insensitive_map_t<V>] of DuckDB: an unordered map whose hash and
    equality fold the case of the key.  It is kept as the finite map from
    the lower-cased key to the element, which is the key as it was inserted
    and the value. *)
Record case_insensitive_map_t (V : Type) : Type := CaseInsensitiveMap {
  elements_of : gmap string (string * V)
}.
Arguments CaseInsensitiveMap {V} _.
Arguments elements_of {V} _.

(** [m.find(k)]: the value of the element found, in any spelling of [k]. *)
#[global] Instance case_insensitive_lookup {V}
  : Lookup string V (case_insensitive_map_t V) :=
  fun k m => snd <$> elements_of m !! Lower k.

#[global] Instance case_insensitive_empty {V}
  : Empty (case_insensitive_map_t V) :=
  CaseInsensitiveMap ∅.

(** [m.insert(make_pair(k, v))] *)
Definition case_insensitive_insert {V} (k : string) (v : V)
    (m : case_insensitive_map_t V) : case_insensitive_map_t V :=
  CaseInsensitiveMap (map_insert_new (Lower k) (k, v) (elements_of m)).

(** [m.erase(k)] *)
Definition case_insensitive_erase {V} (k : string)
    (m : case_insensitive_map_t V) : case_insensitive_map_t V :=
  CaseInsensitiveMap (delete (Lower k) (elements_of m)).

(** The elements of the map, each the key as inserted and the value. *)
Definition case_insensitive_elements {V} (m : case_insensitive_map_t V)
  : list (string * V) :=
  (map_to_list (elements_of m)).*2.

(** Modelled from the spec: the declaration of the member [entry_map], which
    mysql_catalog_set.cpp uses and the header does not have.  It is the name
    index of the specification, which leads from any spelling of a name to
    the canonical name: the case insensitive map of the comment in
    [GetEntry], in which [CreateEntry] puts the name under itself.

    The other members are those of storage/mysql_catalog_set.hpp, where
    [entries] is a [case_insensitive_map_t<unique_ptr<CatalogEntry>>].

    [load_calls] is not a member: it counts the runs of [LoadEntries]. *)
Record MySQLCatalogSet : Type := {
  entries : case_insensitive_map_t CatalogEntry;
  entry_map : case_insensitive_map_t string;
  is_loaded : bool;
  load_calls : nat
}.

(** The constructor. *)
Definition new_set : MySQLCatalogSet :=
  {| entries := ∅; entry_map := ∅; is_loaded := false; load_calls := 0 |}.

(** The raw pointer that [CreateEntry] gives back.  It is taken from the
    [unique_ptr] before the insertion: when the map takes the entry it points
    to the stored entry; when the name is taken the entry is destroyed with
    the pair that was not inserted, and the pointer is left dangling. *)
Inductive EntryPointer : Type :=
| points_to (entry : CatalogEntry)
| dangling.

Definition CreateEntry (set : MySQLCatalogSet) (entry : CatalogEntry)
  : Result EntryPointer * MySQLCatalogSet :=
  let result := entry in
  match name result with
  | EmptyString =>
      (Throw (InternalException
                "MySQLCatalogSet::CreateEntry called with empty name"), set)
  | _ =>
      (Ok (match entries set !! name result with
           | None => points_to result
           | Some _ => dangling
           end),
       {| entry_map :=
            case_insensitive_insert (name result) (name result) (entry_map set);
          entries := case_insensitive_insert (name result) entry (entries set);
          is_loaded := is_loaded set;
          load_calls := load_calls set |})
  end.

(** A run of [LoadEntries]: the entries are created one after the other; an
    exception ends the run and leaves what was created. *)
Fixpoint create_all (set : MySQLCatalogSet) (found : list CatalogEntry)
  : Result unit * MySQLCatalogSet :=
  match found with
  | [] => (Ok tt, set)
  | entry :: found =>
      match CreateEntry set entry with
      | (Throw e, set) => (Throw e, set)
      | (Ok _, set) => create_all set found
      end
  end.

Definition LoadEntries (context : ClientContext) (set : MySQLCatalogSet)
  : Result unit * MySQLCatalogSet :=
  let set :=
    {| entries := entries set; entry_map := entry_map set;
       is_loaded := is_loaded set; load_calls := S (load_calls set) |} in
  match create_all set (discovered context) with
  | (Throw e, set) => (Throw e, set)
  | (Ok _, set) =>
      match discovery_error context with
      | Some e => (Throw e, set)
      | None => (Ok tt, set)
      end
  end.

(** [if (!is_loaded) { is_loaded = true; LoadEntries(context); }] *)
Definition load_if_needed (context : ClientContext) (set : MySQLCatalogSet)
  : Result unit * MySQLCatalogSet :=
  if negb (is_loaded set) then
    let set :=
      {| entries := entries set; entry_map := entry_map set;
         is_loaded := true; load_calls := load_calls set |} in
    LoadEntries context set
  else (Ok tt, set).

(** The part of [GetEntry] under the lock. *)
Definition find_entry (set : MySQLCatalogSet) (name : string)
  : option CatalogEntry :=
  match entries set !! name with
  | Some entry => Some entry
  | None =>
      match entry_map set !! name with
      | None => None
      | Some name_entry => entries set !! name_entry
      end
  end.

Definition GetEntry (context : ClientContext) (set : MySQLCatalogSet)
    (name : string) : Result (option CatalogEntry) * MySQLCatalogSet :=
  match load_if_needed context set with
  | (Throw e, set) => (Throw e, set)
  | (Ok _, set) => (Ok (find_entry set name), set)
  end.

Definition drop_query (info : DropInfo) : string :=
  let drop_query := "DROP " in
  let drop_query := drop_query +:+ CatalogTypeToString (info_type info) +:+ " " in
  let drop_query :=
    match info_if_not_found info with
    | RETURN_NULL => drop_query +:+ " IF EXISTS "
    | THROW_EXCEPTION => drop_query
    end in
  let drop_query :=
    drop_query +:+ MySQLUtils.WriteIdentifier (info_name info) in
  match info_type info with
  | SCHEMA_ENTRY => drop_query
  | _ => if info_cascade info then drop_query +:+ " CASCADE" else drop_query
  end.

Definition DropEntry (context : ClientContext) (set : MySQLCatalogSet)
    (info : DropInfo) : Result unit * MySQLCatalogSet :=
  match Query context (drop_query info) with
  | Some e => (Throw e, set)
  | None =>
      (Ok tt,
       {| entries := case_insensitive_erase (info_name info) (entries set);
          entry_map := entry_map set;
          is_loaded := is_loaded set;
          load_calls := load_calls set |})
  end.

(** [Scan]: the callback is run on every entry; [acc] is what the callback
    has captured by reference. *)
Definition Scan {A} (context : ClientContext) (set : MySQLCatalogSet)
    (callback : CatalogEntry -> A -> A) (acc : A)
  : Result A * MySQLCatalogSet :=
  match load_if_needed context set with
  | (Throw e, set) => (Throw e, set)
  | (Ok _, set) =>
      (Ok (map_fold (fun _ element acc => callback element.2 acc) acc
                    (elements_of (entries set))),
       set)
  end.

Definition ClearEntries (set : MySQLCatalogSet) : MySQLCatalogSet :=
  {| entry_map := ∅; entries := ∅; is_loaded := false;
     load_calls := load_calls set |}.

(** Sequences of calls, to speak of the states a set can be in. *)
Inductive Call : Type :=
| CallCreateEntry (entry : CatalogEntry)
| CallDropEntry (context : ClientContext) (info : DropInfo)
| CallClearEntries
| CallGetEntry (context : ClientContext) (name : string)
| CallScan (context : ClientContext).

Definition call (set : MySQLCatalogSet) (c : Call) : MySQLCatalogSet :=
  match c with
  | CallCreateEntry entry => (CreateEntry set entry).2
  | CallDropEntry context info => (DropEntry context set info).2
  | CallClearEntries => ClearEntries set
  | CallGetEntry context name => (GetEntry context set name).2
  | CallScan context => (Scan context set (fun _ (u : unit) => u) tt).2
  end.

Definition calls (set : MySQLCatalogSet) (cs : list Call) : MySQLCatalogSet :=
  fold_left call cs set.

Definition is_clear (c : Call) : bool :=
  match c with CallClearEntries => true | _ => false end.

(** *** Notions for the statements about the catalog set *)

(** [is_loaded = true] on a set. *)
Definition mark_loaded (set : MySQLCatalogSet) : MySQLCatalogSet :=
  {| entries := entries set; entry_map := entry_map set;
     is_loaded := true; load_calls := load_calls set |}.

(** An entry is stored in the set. *)
Definition stored (set : MySQLCatalogSet) (entry : CatalogEntry) : Prop :=
  entries set !! name entry = Some entry.

(** Every entry sits under its own name, and the name has a record in the
    name index. *)
Definition keyed (set : MySQLCatalogSet) : Prop :=
  forall l k entry, elements_of (entries set) !! l = Some (k, entry) ->
    l = Lower k /\ name entry = k /\ is_Some (entry_map set !! k).

Definition quiet : ClientContext :=
  {| discovered := []; discovery_error := None; Query := fun _ => None |}.



(** The calls that load the set. *)
Definition is_read (c : Call) : bool :=
  match c with CallGetEntry _ _ | CallScan _ => true | _ => false end.

End MySQLCatalogSet.

(** ** mysql_filter_pushdown.hpp *)

Module MySQLFilterPushdown.

(** Modelled from the spec: mysql_filter_pushdown.cpp, with the bodies of
    [TransformFilters], [TransformFilter], [TransformComparision] and
    [CreateExpression], is missing; the header declares them.  The
    definitions follow sections 3, 4.4 and 6 of the specification: a filter
    hangs on a column id; a comparison gives [(col OP lit)], a set
    membership [(col IN (lit, lit, ...))], a conjunction its translated
    children joined by AND in parentheses; an unsupported node gives nothing,
    and nothing is what the empty string stands for. *)
Inductive ExpressionType : Type :=
| COMPARE_EQUAL | COMPARE_LESSTHAN | COMPARE_LESSTHANOREQUALTO
| COMPARE_GREATERTHAN | COMPARE_GREATERTHANOREQUALTO | COMPARE_NOTEQUAL.

Inductive PredicateNode : Type :=
| Comparison (comparison_type : ExpressionType) (constant : string)
| Conjunction (child_filters : list PredicateNode)
| InConstants (values : list string)
| Unsupported.

(** [StringUtil::Join] of DuckDB. *)
Fixpoint Join (input : list string) (separator : string) : string :=
  match input with
  | [] => EmptyString
  | [s] => s
  | s :: rest => s +:+ separator +:+ Join rest separator
  end.

Definition nonempty (s : string) : bool :=
  match s with EmptyString => false | _ => true end.

Definition TransformComparision (type : ExpressionType) : string :=
  match type with
  | COMPARE_EQUAL => "="
  | COMPARE_LESSTHAN => "<"
  | COMPARE_LESSTHANOREQUALTO => "<="
  | COMPARE_GREATERTHAN => ">"
  | COMPARE_GREATERTHANOREQUALTO => ">="
  | COMPARE_NOTEQUAL => "<>"
  end.

(** The children that translate to something, joined by [op] in
    parentheses; nothing when no child does. *)
Definition join_entries (filter_entries : list string) (op : string) : string :=
  match List.filter nonempty filter_entries with
  | [] => EmptyString
  | kept => "(" +:+ Join kept (" " +:+ op +:+ " ") +:+ ")"
  end.

Fixpoint TransformFilter (column_name : string) (filter : PredicateNode)
  : string :=
  match filter with
  | Comparison comparison_type constant =>
      "(" +:+ column_name +:+ " " +:+ TransformComparision comparison_type
      +:+ " " +:+ MySQLUtils.WriteLiteral constant +:+ ")"
  | Conjunction child_filters =>
      join_entries (List.map (TransformFilter column_name) child_filters) "AND"
  | InConstants values =>
      "(" +:+ column_name +:+ " IN ("
      +:+ Join (List.map MySQLUtils.WriteLiteral values) ", " +:+ "))"
  | Unsupported => EmptyString
  end.

Definition CreateExpression (column_name : string)
    (filters : list PredicateNode) (op : string) : string :=
  join_entries (List.map (TransformFilter column_name) filters) op.

(** The name of the column that a filter hangs on, [names[column_ids[index]]],
    when the index and the column id are within the lists. *)
Definition column_name_of (column_ids : list nat) (names : list string)
    (index : nat) : option string :=
  column_id ← column_ids !! index; names !! column_id.

(** The translation of one filter of the set.  The specification has no
    error for the translator (sections 2 and 7): it declines what it cannot
    express, which is left out of the fragment and stays with the engine.
    So a filter whose column does not resolve is declined like an
    unsupported one. *)
Definition transform_entry (column_ids : list nat) (names : list string)
    (entry : nat * PredicateNode) : string :=
  match column_name_of column_ids names entry.1 with
  | Some n => TransformFilter (MySQLUtils.WriteIdentifier n) entry.2
  | None => EmptyString
  end.

(** [filters] is the optional pointer to the filter set: the filters with
    the index of their column in [column_ids]. *)
Definition TransformFilters (column_ids : list nat)
    (filters : option (list (nat * PredicateNode))) (names : list string)
  : string :=
  match filters with
  | None => EmptyString
  | Some filters =>
      Join (List.filter nonempty
              (List.map (transform_entry column_ids names) filters)) " AND "
  end.

(** A filter that has something to emit: a comparison, a set membership, or
    a conjunction with such a filter among its children. *)
Fixpoint expressible (filter : PredicateNode) : bool :=
  match filter with
  | Comparison _ _ => true
  | Conjunction child_filters => existsb expressible child_filters
  | InConstants _ => true
  | Unsupported => false
  end.

(** The filter without its unsupported nodes, and without the conjunctions
    they leave empty. *)
Fixpoint prune (filter : PredicateNode) : option PredicateNode :=
  match filter with
  | Comparison _ _ => Some filter
  | Conjunction child_filters =>
      match omap prune child_filters with
      | [] => None
      | kept => Some (Conjunction kept)
      end
  | InConstants _ => Some filter
  | Unsupported => None
  end.

Definition prune_set (filters : list (nat * PredicateNode))
  : list (nat * PredicateNode) :=
  omap (fun '(index, filter) => pair index <$> prune filter) filters.

(** A term in parentheses. *)
Definition parenthesized (s : string) : Prop :=
  exists body, s = "(" +:+ body +:+ ")".

(** *** Notions for the statements about the translation *)

(** The filters of the set whose column resolves, each with the name of
    its column. *)
Definition resolved (column_ids : list nat) (names : list string)
    (filters : list (nat * PredicateNode)) : list (string * PredicateNode) :=
  omap (fun '(index, filter) =>
          n ← column_name_of column_ids names index; Some (n, filter))
       filters.

(** The filters that the translator supports: resolved, with something to
    emit. *)
Definition supported (column_ids : list nat) (names : list string)
    (filters : list (nat * PredicateNode)) : list (string * PredicateNode) :=
  List.filter (fun c => expressible c.2) (resolved column_ids names filters).

End MySQLFilterPushdown.

(** * Theorems *)

Import MySQLUtils.

(** ** Strings *)

Section Strings.

Lemma append_cons (c : ascii) (s t : string) :
  String c s +:+ t = String c (s +:+ t).
Proof. reflexivity. Qed.

Lemma append_assoc (s t u : string) : (s +:+ t) +:+ u = s +:+ (t +:+ u).
Proof.
  induction s as [|c s IH]; [done|]. rewrite !append_cons. by rewrite IH.
Qed.

Lemma append_empty_r (s : string) : s +:+ EmptyString = s.
Proof.
  induction s as [|c s IH]; [done|].
  change (String c (s +:+ EmptyString) = String c s). by rewrite IH.
Qed.

Lemma length_append (s t : string) :
  String.length (s +:+ t) = (String.length s + String.length t)%nat.
Proof.
  induction s as [|c s IH]; [done|]. rewrite append_cons. cbn. by rewrite IH.
Qed.

End Strings.

(** ** Quoting *)

Section Quoting.

Lemma prefix_one_char (q c : ascii) (rest : string) :
  String.prefix (string1 q) (String c rest) = Ascii.eqb c q.
Proof.
  unfold string1; simpl.
  destruct (ascii_dec q c) as [->|Hne].
  - rewrite Ascii.eqb_refl. by destruct rest.
  - symmetry. apply Ascii.eqb_neq. congruence.
Qed.

(** On a one-character pattern [Replace] works character by character. *)
Lemma EscapeQuotes_chars (text : string) (quote : ascii) :
  EscapeQuotes text quote = escape_quote_only quote text.
Proof.
  unfold EscapeQuotes, Replace.
  induction text as [|c rest IH]; [done|].
  cbn [Replace_skip escape_quote_only].
  rewrite prefix_one_char.
  destruct (Ascii.eqb c quote) eqn:E.
  - apply Ascii.eqb_eq in E as ->. cbn. by rewrite IH.
  - by rewrite IH.
Qed.

(** Backslashes are copied: an input without the quote character comes out
    as it went in. *)
Lemma escape_quote_only_id (quote : ascii) (text : string) :
  Contains text (string1 quote) = false ->
  escape_quote_only quote text = text.
Proof.
  induction text as [|c rest IH]; [done|].
  cbn [Contains escape_quote_only]. rewrite prefix_one_char.
  destruct (Ascii.eqb c quote); [done|].
  intros H. by rewrite IH.
Qed.

End Quoting.

(** C1, as the specification has it, fails on a backslash: it is copied,
    not escaped, in an identifier and in a literal alike. *)
Lemma WriteQuoted_backslash_not_escaped :
  WriteIdentifier "a\b" = "`a\b`" /\
  WriteIdentifier "a\b" <> WriteQuoted_spec "a\b" backtick /\
  WriteLiteral "a\b" = "'a\b'" /\
  WriteLiteral "a\b" <> WriteQuoted_spec "a\b" squote.
Proof. repeat split; done. Qed.

(** C1, amended: [WriteIdentifier s] is [s] between backticks and
    [WriteLiteral s] is [s] between single quotes, where every embedded
    quote character of that kind has a backslash put in front and every
    other character, the backslash included, is copied unchanged. *)
Theorem WriteQuoted_escapes_the_quote_only (s : string) :
  WriteIdentifier s
    = string1 backtick +:+ escape_quote_only backtick s +:+ string1 backtick /\
  WriteLiteral s
    = string1 squote +:+ escape_quote_only squote s +:+ string1 squote.
Proof.
  unfold WriteIdentifier, WriteLiteral, WriteQuoted.
  by rewrite !EscapeQuotes_chars.
Qed.

(** ** The port *)


(** C3 at its failing input: the port 65400 lies in 0..65535, and the parse
    of a DSN that sets it raises, in every environment. *)
Theorem ParseConnectionParameters_rejects_port_65400 (getenv : Environment) :
  ParseConnectionParameters getenv "port=65400"
  = Throw (InvalidInputException
             "Invalid port 65400 - port must be between 0 and 65353").
Proof. reflexivity. Qed.

(** ** Type mapping *)

(** C6: [ToMySQLType] raises for every list, struct, map and union type,
    so that none of them is turned into another type; it gives the one
    timestamp kind for the second, millisecond and nanosecond timestamps,
    double for the 128-bit integer, and the input itself for boolean, the
    eight integer kinds, float, double, blob, date, decimal, the two
    timestamps and text. *)
Theorem ToMySQLType_cases (input : LogicalType) :
  (In (id input) [LIST; STRUCT; MAP; UNION] ->
     exists msg, ToMySQLType input = Throw (NotImplementedException msg)) /\
  (In (id input) [TIMESTAMP_SEC; TIMESTAMP_MS; TIMESTAMP_NS] ->
     ToMySQLType input = Ok (Plain TIMESTAMP)) /\
  (id input = HUGEINT -> ToMySQLType input = Ok (Plain DOUBLE)) /\
  (In (id input) [BOOLEAN; TINYINT; SMALLINT; INTEGER; BIGINT;
                  UTINYINT; USMALLINT; UINTEGER; UBIGINT;
                  FLOAT; DOUBLE; BLOB; DATE; DECIMAL;
                  TIMESTAMP; TIMESTAMP_TZ; VARCHAR] ->
     ToMySQLType input = Ok input).
Proof.
  unfold ToMySQLType.
  repeat split; cbn [In]; intros H;
    repeat (destruct H as [H|H]; [rewrite <- H; eauto|]);
    try done; by rewrite H.
Qed.

Lemma ToMySQLType_cases_witness :
  (exists msg, ToMySQLType (ListType (Plain INTEGER))
               = Throw (NotImplementedException msg)) /\
  ToMySQLType (Plain TIMESTAMP_NS) = Ok (Plain TIMESTAMP) /\
  ToMySQLType (Plain HUGEINT) = Ok (Plain DOUBLE) /\
  ToMySQLType (DecimalType 10 2) = Ok (DecimalType 10 2).
Proof.
  split; [|split; [|split]].
  - apply (ToMySQLType_cases (ListType (Plain INTEGER))). simpl. auto.
  - apply (ToMySQLType_cases (Plain TIMESTAMP_NS)). simpl. auto.
  - apply (ToMySQLType_cases (Plain HUGEINT)). reflexivity.
  - apply (ToMySQLType_cases (DecimalType 10 2)). simpl. auto 20.
Defined.

(** C7, as the specification has it, fails on an unsigned column of display
    width 1: with the setting on it stays an unsigned tinyint. *)
Lemma tinyint1_unsigned_is_not_boolean :
  let context : ClientContext := fun _ => Some true in
  let type_info :=
    {| type_name := "tinyint"; column_type := "tinyint(1) unsigned";
       precision := 0; scale := 0 |} in
  declared_width_1 (column_type type_info) = true /\
  TypeToLogicalType context type_info = Plain UTINYINT /\
  TypeToLogicalType context type_info
    <> tinyint_spec context (column_type type_info).
Proof. repeat split; done. Qed.

(** C7, amended: for the type name tinyint, the result is boolean when the
    raw column-type string is exactly tinyint(1) and the setting
    mysql_tinyint1_as_boolean is on; otherwise unsigned tinyint when the
    column-type string contains unsigned, and signed tinyint when not. *)
Theorem TypeToLogicalType_tinyint (context : ClientContext)
    (type_info : MySQLTypeData) :
  type_name type_info = "tinyint" ->
  TypeToLogicalType context type_info
  = if (String.eqb (column_type type_info) "tinyint(1)"
        && bool_decide (context "mysql_tinyint1_as_boolean" = Some true))%bool
    then Plain BOOLEAN
    else if Contains (column_type type_info) "unsigned"
         then Plain UTINYINT else Plain TINYINT.
Proof.
  intros Hname. unfold TypeToLogicalType. rewrite Hname. cbn [String.eqb].
  change (String.eqb "tinyint" "tinyint") with true. cbv iota.
  destruct (String.eqb (column_type type_info) "tinyint(1)"); [|done].
  by destruct (context "mysql_tinyint1_as_boolean") as [[]|].
Qed.

Lemma TypeToLogicalType_tinyint_witness :
  TypeToLogicalType (fun _ => Some true)
    {| type_name := "tinyint"; column_type := "tinyint(1)";
       precision := 0; scale := 0 |} = Plain BOOLEAN.
Proof.
  exact (TypeToLogicalType_tinyint (fun _ => Some true)
           {| type_name := "tinyint"; column_type := "tinyint(1)";
              precision := 0; scale := 0 |} eq_refl).
Defined.

(** ** Connection parameters *)

Section ConnectionParameters.

Local Open Scope nat_scope.

Lemma skip_spaces_length (s : string) :
  String.length (skip_spaces s) <= String.length s.
Proof.
  induction s as [|c rest IH]; simpl; [lia|].
  destruct (CharacterIsSpace c); simpl; lia.
Qed.

Lemma scan_quoted_length (dsn : string) (n : nat) :
  forall rest result rest' result',
    String.length rest <= n ->
    scan_quoted dsn rest result = Ok (rest', result') ->
    String.length rest' < String.length rest.
Proof.
  induction n as [|n IH]; intros rest result rest' result' Hn H.
  - destruct rest; [done|simpl in Hn; lia].
  - destruct rest as [|c rest1]; [done|]. simpl in H, Hn.
    destruct (Ascii.eqb c dquote).
    { injection H as <- _. simpl. lia. }
    destruct (Ascii.eqb c backslash).
    + destruct rest1 as [|d rest2]; [done|].
      destruct (negb (Ascii.eqb d backslash) && negb (Ascii.eqb d dquote))%bool;
        [done|].
      apply IH in H; simpl in *; lia.
    + apply IH in H; simpl in *; lia.
Qed.

Lemma scan_unquoted_length (rest result : string) :
  String.length (scan_unquoted rest result).1 <= String.length rest.
Proof.
  revert result. induction rest as [|c rest IH]; intros result; simpl; [lia|].
  destruct (Ascii.eqb c "="); [simpl; lia|].
  destruct (CharacterIsSpace c); [simpl; lia|].
  specialize (IH (result +:+ string1 c)). lia.
Qed.

Lemma ParseValue_length (dsn rest result : string) b rest' result' :
  ParseValue dsn rest result = Ok (b, rest', result') ->
  String.length rest' <= String.length rest.
Proof.
  unfold ParseValue. pose proof (skip_spaces_length rest) as Hs.
  destruct (skip_spaces rest) as [|c rest1] eqn:E.
  - intros [= <- <- <-]. simpl. lia.
  - destruct (Ascii.eqb c dquote).
    + destruct (scan_quoted dsn rest1 result) as [[r q]|e] eqn:Eq; [|done].
      cbn. intros [= <- <- <-].
      apply (scan_quoted_length _ _ _ _ _ _ (le_n _)) in Eq. simpl in Hs. lia.
    + pose proof (scan_unquoted_length (String c rest1) result) as Hu.
      destruct (scan_unquoted (String c rest1) result) as [r q].
      intros [= <- <- <-]. simpl in *. lia.
Qed.

(** The fuel given by [parse_dsn] is never used up: the loop ends. *)
Lemma parse_options_fuel (fuel : nat) :
  forall dsn rest result set_options,
    String.length rest < fuel ->
    parse_options fuel dsn rest result set_options <> None.
Proof.
  induction fuel as [|fuel IH]; intros dsn rest result set_options Hf; [lia|].
  cbn [parse_options].
  destruct rest as [|c0 rest0]; [done|].
  destruct (ParseValue dsn (String c0 rest0) EmptyString)
    as [[[b rest1] key]|e] eqn:E1; [|done].
  apply ParseValue_length in E1.
  destruct b; [|done].
  destruct rest1 as [|c1 rest2]; [done|].
  destruct (Ascii.eqb_spec c1 "="%char) as [->|Hne].
  2:{ destruct c1 as [[] [] [] [] [] [] [] []]; try done. }
  destruct (ParseValue dsn rest2 EmptyString) as [[[b2 rest3] value]|e] eqn:E2;
    [|done].
  apply ParseValue_length in E2.
  destruct b2; [|done].
  destruct (assign_option (Lower key) value result set_options) as [[r s]|e];
    [|done].
  apply IH. simpl in *. lia.
Qed.

Lemma parse_dsn_fuel (dsn : string) :
  parse_options (S (String.length dsn)) dsn dsn default_parameters ∅
  = Some (parse_dsn dsn).
Proof.
  unfold parse_dsn.
  pose proof (parse_options_fuel (S (String.length dsn)) dsn dsn
                default_parameters ∅ (Nat.lt_succ_diag_r _)) as Hfuel.
  by destruct (parse_options _ dsn dsn default_parameters ∅).
Qed.

Lemma untouched_refl set_options r : untouched set_options r r.
Proof. by repeat split. Qed.

Lemma untouched_trans s1 s2 r0 r1 r2 :
  s1 ⊆ s2 -> untouched s1 r0 r1 -> untouched s2 r1 r2 -> untouched s2 r0 r2.
Proof.
  intros Hsub (A1&A2&A3&A4&A5&A6&A7&A8) (B1&B2&B3&B4&B5&B6&B7&B8).
  repeat split; try (intros Hn; etrans; [auto|]; auto; fail).
  congruence.
Qed.

Lemma assign_option_untouched key value r0 s0 r s :
  assign_option key value r0 s0 = Ok (r, s) ->
  s0 ⊆ s /\ untouched s r0 r.
Proof.
  unfold assign_option.
  repeat match goal with
         | |- context [if ?b then _ else _] => destruct b
         end;
    try (destruct (ParsePort value); cbn);
    intros [= <- <-] || (intros; done);
    (split; [set_solver|]); unfold untouched; cbn;
    repeat split; intros; try done; set_solver.
Qed.

Lemma parse_options_untouched (fuel : nat) :
  forall dsn rest r0 s0 r s,
    parse_options fuel dsn rest r0 s0 = Some (Ok (r, s)) ->
    s0 ⊆ s /\ untouched s r0 r.
Proof.
  induction fuel as [|fuel IH]; intros dsn rest r0 s0 r s H; [done|].
  cbn [parse_options] in H.
  destruct rest as [|c0 rest0].
  { injection H as <- <-. split; [done|apply untouched_refl]. }
  destruct (ParseValue dsn (String c0 rest0) EmptyString)
    as [[[b rest1] key]|e]; [|done].
  destruct b.
  2:{ injection H as <- <-. split; [done|apply untouched_refl]. }
  destruct rest1 as [|c1 rest2]; [done|].
  destruct (Ascii.eqb_spec c1 "="%char) as [->|Hne].
  2:{ destruct c1 as [[] [] [] [] [] [] [] []]; try done. }
  destruct (ParseValue dsn rest2 EmptyString) as [[[b2 rest3] value]|e];
    [|done].
  destruct b2; [|done].
  destruct (assign_option (Lower key) value r0 s0) as [[r1 s1]|e] eqn:Ea;
    [|done].
  apply assign_option_untouched in Ea as [Hs1 Hu1].
  apply IH in H as [Hs Hu]. split; [by etrans|].
  eapply untouched_trans; [exact Hs| |exact Hu].
  destruct Hu1 as (A1&A2&A3&A4&A5&A6&A7&A8).
  repeat split; try (intros; (apply A1 || apply A2 || apply A3 || apply A4
                               || apply A5 || apply A6 || apply A7);
                     set_solver).
  done.
Qed.

(** What the DSN phase leaves unset has its default. *)
Lemma parse_dsn_untouched dsn explicit set_options :
  parse_dsn dsn = Ok (explicit, set_options) ->
  untouched set_options default_parameters explicit.
Proof.
  intros H. pose proof (parse_dsn_fuel dsn) as Hf. rewrite H in Hf.
  by apply parse_options_untouched in Hf as [_ ?].
Qed.

Lemma ParseConnectionParameters_filled
    (getenv : Environment) (dsn : string)
    (explicit : MySQLConnectionParameters) (set_options : gset string) :
  parse_dsn dsn = Ok (explicit, set_options) ->
  ParseConnectionParameters getenv dsn
  = port_val ← filled_port getenv explicit set_options;
    Ok (filled getenv explicit set_options port_val).
Proof.
  intros H. pose proof (parse_dsn_untouched _ _ _ H) as (U1&U2&U3&U4&U5&U6&U7&U8).
  unfold ParseConnectionParameters. rewrite H. cbn.
  unfold read_unset_options, filled_port, filled, ReadOptionFromEnv, env_or_empty.
  destruct explicit as [h u p d po us w cf]; cbn in *.
  repeat match goal with
         | |- context [bool_decide (?k ∈ set_options)] =>
             destruct (decide (k ∈ set_options));
             [rewrite (bool_decide_eq_true_2 (k ∈ set_options)) by done;
              rewrite (bool_decide_eq_false_2 (k ∉ set_options)) by tauto
             |rewrite (bool_decide_eq_false_2 (k ∈ set_options)) by done;
              rewrite (bool_decide_eq_true_2 (k ∉ set_options)) by done]
         end;
    repeat match goal with
           | Hu : ?k ∉ set_options -> _, Hk : ?k ∉ set_options |- _ =>
               specialize (Hu Hk)
           end;
    subst;
    repeat match goal with
           | |- context [getenv ?v] => destruct (getenv v); cbn
           end;
    try done; by destruct (ParsePort _).
Qed.

End ConnectionParameters.

(** *** Single values and single pairs *)

Section ParseValueTheorems.

Local Open Scope nat_scope.

Lemma scan_unquoted_plain (s : string) : forall rest result,
  all_plain s = true -> stops rest = true ->
  scan_unquoted (s +:+ rest) result = (rest, result +:+ s).
Proof.
  induction s as [|c s IH]; intros rest result Hs Hr.
  - change (EmptyString +:+ rest) with rest. rewrite append_empty_r.
    destruct rest as [|d rest]; [done|]. cbn in *. unfold plain in Hr.
    destruct (Ascii.eqb d "="); [done|].
    by destruct (CharacterIsSpace d).
  - cbn in Hs. apply andb_prop in Hs as [Hc Hs]. unfold plain in Hc.
    rewrite append_cons. cbn [scan_unquoted].
    destruct (Ascii.eqb c "="); [done|].
    destruct (CharacterIsSpace c); [done|].
    rewrite IH by done. by rewrite append_assoc.
Qed.

Lemma ParseValue_unquoted (dsn s rest result : string) :
  unquoted s = true -> stops rest = true ->
  ParseValue dsn (s +:+ rest) result = Ok (true, rest, result +:+ s).
Proof.
  intros Hs Hr. destruct s as [|c s]; [done|].
  cbn [unquoted] in Hs. apply andb_prop in Hs as [Hq Hp].
  pose proof (scan_unquoted_plain (String c s) rest result Hp Hr) as Hscan.
  cbn [all_plain] in Hp. apply andb_prop in Hp as [Hc _]. unfold plain in Hc.
  unfold ParseValue. rewrite append_cons in *. cbn [skip_spaces].
  destruct (CharacterIsSpace c) eqn:Esp.
  { by rewrite andb_false_r in Hc. }
  destruct (Ascii.eqb c dquote); [done|]. by rewrite Hscan.
Qed.

Lemma scan_quoted_escape (dsn : string) (value : string) :
  forall rest result,
    scan_quoted dsn (dsn_escape value +:+ String dquote rest) result
    = Ok (rest, result +:+ value).
Proof.
  induction value as [|c value IH]; intros rest result.
  - change (dsn_escape EmptyString +:+ String dquote rest)
      with (String dquote rest).
    by rewrite append_empty_r.
  - cbn [dsn_escape].
    destruct (Ascii.eqb_spec c backslash) as [->|Hb]; cbn [orb].
    { rewrite !append_cons. cbn. rewrite IH. by rewrite append_assoc. }
    destruct (Ascii.eqb_spec c dquote) as [->|Hq].
    { rewrite !append_cons. cbn. rewrite IH. by rewrite append_assoc. }
    rewrite append_cons. cbn [scan_quoted].
    rewrite (proj2 (Ascii.eqb_neq c dquote)) by done.
    rewrite (proj2 (Ascii.eqb_neq c backslash)) by done.
    rewrite IH. by rewrite append_assoc.
Qed.

Lemma skip_spaces_all_space (sp rest : string) :
  all_space sp = true -> skip_spaces (sp +:+ rest) = skip_spaces rest.
Proof.
  induction sp as [|c sp IH]; [done|]. cbn [all_space]. intros H.
  apply andb_prop in H as [Hc Hsp]. rewrite append_cons. cbn [skip_spaces].
  rewrite Hc. by apply IH.
Qed.

Lemma ParseValue_quoted (dsn sp value rest result : string) :
  all_space sp = true ->
  ParseValue dsn (sp +:+ dsn_quote value +:+ rest) result
  = Ok (true, rest, result +:+ value).
Proof.
  intros Hsp. unfold ParseValue. rewrite skip_spaces_all_space by done.
  unfold dsn_quote. rewrite append_cons, append_assoc.
  change (string1 dquote +:+ rest) with (String dquote rest).
  cbn [skip_spaces CharacterIsSpace dquote]. cbn [Ascii.eqb Bool.eqb].
  rewrite scan_quoted_escape. done.
Qed.

(** One pair, the key unquoted: what [assign_option] makes of the
    lower-cased key and the value is the outcome of the DSN phase. *)
Lemma parse_dsn_one_pair (k vt v : string) :
  unquoted k = true ->
  (forall dsn, ParseValue dsn vt EmptyString = Ok (true, EmptyString, v)) ->
  parse_dsn (k +:+ "=" +:+ vt)
  = assign_option (Lower k) v default_parameters ∅.
Proof.
  intros Hk Hv. unfold parse_dsn.
  set (dsn := k +:+ "=" +:+ vt).
  assert (exists n, String.length dsn = S n) as [n Hn].
  { subst dsn. destruct k as [|c k]; [done|]. rewrite append_cons.
    by eexists. }
  rewrite Hn. cbn [parse_options].
  assert (ParseValue dsn dsn EmptyString = Ok (true, String "="%char vt, k))
    as Hkey.
  { subst dsn. by rewrite ParseValue_unquoted. }
  destruct dsn as [|c0 dsn0] eqn:Edsn; [done|]. rewrite <- Edsn in *.
  rewrite Hkey, Hv.
  destruct (assign_option (Lower k) v default_parameters ∅) as [[r s]|e];
    [|done].
  by destruct n.
Qed.

Lemma ParseValue_unquoted_end (dsn s : string) :
  unquoted s = true ->
  ParseValue dsn s EmptyString = Ok (true, EmptyString, s).
Proof.
  intros Hs.
  pose proof (ParseValue_unquoted dsn s EmptyString EmptyString Hs eq_refl)
    as H.
  by rewrite append_empty_r in H.
Qed.

Lemma ParseValue_quoted_end (dsn value : string) :
  ParseValue dsn (dsn_quote value) EmptyString
  = Ok (true, EmptyString, value).
Proof.
  pose proof (ParseValue_quoted dsn EmptyString value EmptyString EmptyString
                eq_refl) as H.
  change (EmptyString +:+ ?x) with x in H. by rewrite append_empty_r in H.
Qed.

Lemma skip_spaces_only_space (s : string) :
  all_space s = true -> skip_spaces s = EmptyString.
Proof.
  induction s as [|c s IH]; [done|]. cbn. intros H.
  apply andb_prop in H as [-> H]. by apply IH.
Qed.

End ParseValueTheorems.

Section ParseDsnTheorems.

Lemma written_as_ParseValue (value text dsn : string) :
  written_as value text ->
  ParseValue dsn text EmptyString = Ok (true, EmptyString, value).
Proof.
  intros [[Hu <-] | ->].
  - by apply ParseValue_unquoted_end.
  - apply ParseValue_quoted_end.
Qed.

Lemma CharacterToLower_idemp (c : ascii) :
  CharacterToLower (CharacterToLower c) = CharacterToLower c.
Proof. by destruct c as [[] [] [] [] [] [] [] []]. Qed.

Lemma CharacterToLower_plain (c : ascii) :
  plain (CharacterToLower c) = plain c /\
  Ascii.eqb (CharacterToLower c) dquote = Ascii.eqb c dquote.
Proof. by destruct c as [[] [] [] [] [] [] [] []]. Qed.

Lemma Lower_idemp (s : string) : Lower (Lower s) = Lower s.
Proof.
  induction s as [|c s IH]; [done|]. cbn [Lower].
  by rewrite CharacterToLower_idemp, IH.
Qed.

Lemma Lower_all_plain (s : string) : all_plain (Lower s) = all_plain s.
Proof.
  induction s as [|c s IH]; [done|]. cbn [Lower all_plain].
  by rewrite (proj1 (CharacterToLower_plain c)), IH.
Qed.

Lemma Lower_unquoted (s : string) : unquoted (Lower s) = unquoted s.
Proof.
  destruct s as [|c s]; [done|].
  change (Lower (String c s)) with (String (CharacterToLower c) (Lower s)).
  unfold unquoted.
  change (String (CharacterToLower c) (Lower s)) with (Lower (String c s)).
  by rewrite Lower_all_plain, (proj2 (CharacterToLower_plain c)).
Qed.

Lemma ParseConnectionParameters_dsn_error getenv dsn e :
  parse_dsn dsn = Throw e -> ParseConnectionParameters getenv dsn = Throw e.
Proof. unfold ParseConnectionParameters. by intros ->. Qed.

End ParseDsnTheorems.

(** *** Whole DSNs *)

Section WrittenDsn.

Local Open Scope nat_scope.

Lemma ParseValue_skips (dsn sp rest result : string) :
  all_space sp = true ->
  ParseValue dsn (sp +:+ rest) result = ParseValue dsn rest result.
Proof. intros H. unfold ParseValue. by rewrite skip_spaces_all_space. Qed.

Lemma ParseValue_token (dsn sp : string) (t : Token) (rest : string) :
  all_space sp = true -> token_ok t = true ->
  match t with Unquoted _ => stops rest | Quoted _ => true end = true ->
  ParseValue dsn (sp +:+ token_text t +:+ rest) EmptyString
  = Ok (true, rest, token_value t).
Proof.
  intros Hsp Ht Hr. destruct t as [s|s]; cbn [token_text token_value token_ok] in *.
  - rewrite ParseValue_skips by done. by rewrite ParseValue_unquoted.
  - by rewrite ParseValue_quoted.
Qed.

Lemma separated_stops (p : WrittenPair) (rest : string) :
  separated p rest = true ->
  match value_token p with Unquoted _ => stops rest | Quoted _ => true end
  = true.
Proof.
  unfold separated, stops, plain. destruct (value_token p); [|done].
  destruct rest as [|c rest]; [done|]. intros ->. by rewrite andb_false_r.
Qed.

(** One round of the loop on a pair as it is written. *)
Lemma parse_options_pair (fuel : nat) (dsn : string) (p : WrittenPair)
    (rest : string) r s :
  pair_ok p = true -> separated p rest = true ->
  parse_options (S fuel) dsn (pair_text p +:+ rest) r s
  = match assign_option (Lower (pair_key p)) (pair_value p) r s with
    | Throw e => Some (Throw e)
    | Ok (r', s') => parse_options fuel dsn rest r' s'
    end.
Proof.
  intros Hok Hsep. unfold pair_ok in Hok.
  apply andb_prop in Hok as [Hok Hv]. apply andb_prop in Hok as [Hok Hbv].
  apply andb_prop in Hok as [Hbk Hk].
  unfold pair_text, pair_key, pair_value. rewrite !append_assoc.
  set (behind := before_value p +:+ token_text (value_token p) +:+ rest).
  set (whole := before_key p +:+ token_text (key_token p) +:+ "=" +:+ behind).
  assert (ParseValue dsn whole EmptyString
          = Ok (true, String "="%char behind, token_value (key_token p)))
    as Hkey.
  { subst whole. apply ParseValue_token; try done. by destruct (key_token p). }
  assert (ParseValue dsn behind EmptyString
          = Ok (true, rest, token_value (value_token p))) as Hvalue.
  { subst behind. apply ParseValue_token; try done. by apply separated_stops. }
  cbn [parse_options].
  destruct whole as [|c0 whole0] eqn:E; [done|]. rewrite Hkey, Hvalue.
  by destruct (assign_option _ _ r s) as [[r' s']|e].
Qed.

(** Fuel above the length of the rest does not matter. *)
Lemma parse_options_more_fuel (fuel : nat) :
  forall fuel' dsn rest r s,
    String.length rest < fuel -> String.length rest < fuel' ->
    parse_options fuel dsn rest r s = parse_options fuel' dsn rest r s.
Proof.
  induction fuel as [|fuel IH]; intros fuel' dsn rest r s Hf Hf'; [lia|].
  destruct fuel' as [|fuel']; [lia|].
  cbn [parse_options].
  destruct rest as [|c0 rest0]; [done|].
  destruct (ParseValue dsn (String c0 rest0) EmptyString)
    as [[[b rest1] key]|e] eqn:E1; [|done].
  apply ParseValue_length in E1.
  destruct b; [|done].
  destruct rest1 as [|c1 rest2]; [done|].
  destruct (Ascii.eqb_spec c1 "="%char) as [->|Hne].
  2:{ destruct c1 as [[] [] [] [] [] [] [] []]; try done. }
  destruct (ParseValue dsn rest2 EmptyString) as [[[b2 rest3] value]|e] eqn:E2;
    [|done].
  apply ParseValue_length in E2.
  destruct b2; [|done].
  destruct (assign_option (Lower key) value r s) as [[r1 s1]|e];
    [|done].
  apply IH; simpl in *; lia.
Qed.

Lemma pair_text_length (p : WrittenPair) (rest : string) :
  String.length rest < String.length (pair_text p +:+ rest).
Proof.
  unfold pair_text. rewrite !length_append. cbn. lia.
Qed.

(** The loop on pairs as they are written, in front of any rest. *)
Lemma parse_options_pairs (pairs : list WrittenPair) :
  forall rest fuel dsn r s,
    pairs_ok pairs rest = true ->
    String.length (pairs_text pairs +:+ rest) < fuel ->
    parse_options fuel dsn (pairs_text pairs +:+ rest) r s
    = match assign_all pairs r s with
      | Throw e => Some (Throw e)
      | Ok (r', s') => parse_options fuel dsn rest r' s'
      end.
Proof.
  induction pairs as [|p pairs IH]; intros rest fuel dsn r s Hok Hf; [done|].
  cbn [pairs_ok] in Hok. apply andb_prop in Hok as [Hok Hrest].
  apply andb_prop in Hok as [Hp Hsep].
  cbn [pairs_text assign_all] in *. rewrite append_assoc in *.
  pose proof (pair_text_length p (pairs_text pairs +:+ rest)) as Hlen.
  destruct fuel as [|fuel]; [lia|].
  rewrite parse_options_pair by done.
  destruct (assign_option _ _ r s) as [[r1 s1]|e]; cbn -[parse_options];
    [|done].
  rewrite IH by (done || lia).
  destruct (assign_all pairs r1 s1) as [[r2 s2]|e]; [|done].
  pose proof (length_append (pairs_text pairs) rest).
  apply parse_options_more_fuel; lia.
Qed.

Lemma parse_options_trailing (fuel : nat) (dsn trailing : string) r s :
  all_space trailing = true ->
  parse_options (S fuel) dsn trailing r s = Some (Ok (r, s)).
Proof.
  intros H. cbn [parse_options]. destruct trailing as [|c t]; [done|].
  unfold ParseValue. by rewrite skip_spaces_only_space.
Qed.

(** The DSN phase on a DSN as it is written. *)
Lemma parse_dsn_written (pairs : list WrittenPair) (trailing : string) :
  well_written pairs trailing = true ->
  parse_dsn (dsn_text pairs trailing) = assign_all pairs default_parameters ∅.
Proof.
  intros H. apply andb_prop in H as [Hp Ht].
  unfold parse_dsn, dsn_text. rewrite parse_options_pairs by (done || lia).
  destruct (assign_all pairs default_parameters ∅) as [[r s]|e]; [|done].
  by rewrite parse_options_trailing.
Qed.

(** The cases of the chain of [assign_option]. *)
Ltac key_cases key :=
  unfold assign_option, recognized_key, name_in; cbn [existsb];
  repeat match goal with
         | |- context [String.eqb key ?k] =>
             destruct (String.eqb_spec key k) as [->|?]
         end;
  cbn [orb andb String.eqb Ascii.eqb Bool.eqb].

Lemma assign_option_host key value r0 s0 r s :
  assign_option key value r0 s0 = Ok (r, s) ->
  (if name_in key ["host"] then host r = value
   else host r = host r0) /\
  ("host" ∈ s <-> "host" ∈ s0 \/ name_in key ["host"] = true).
Proof.
  key_cases key; try destruct (ParsePort value); cbn;
    intros [= <- <-] || (intros; done); (split; [done|set_solver]).
Qed.

Lemma assign_option_user key value r0 s0 r s :
  assign_option key value r0 s0 = Ok (r, s) ->
  (if name_in key ["user"] then user r = value
   else user r = user r0) /\
  ("user" ∈ s <-> "user" ∈ s0 \/ name_in key ["user"] = true).
Proof.
  key_cases key; try destruct (ParsePort value); cbn;
    intros [= <- <-] || (intros; done); (split; [done|set_solver]).
Qed.

Lemma assign_option_passwd key value r0 s0 r s :
  assign_option key value r0 s0 = Ok (r, s) ->
  (if name_in key ["passwd"; "password"] then passwd r = value
   else passwd r = passwd r0) /\
  ("password" ∈ s
   <-> "password" ∈ s0 \/ name_in key ["passwd"; "password"] = true).
Proof.
  key_cases key; try destruct (ParsePort value); cbn;
    intros [= <- <-] || (intros; done); (split; [done|set_solver]).
Qed.

Lemma assign_option_db key value r0 s0 r s :
  assign_option key value r0 s0 = Ok (r, s) ->
  (if name_in key ["db"; "database"] then db r = value
   else db r = db r0) /\
  ("database" ∈ s <-> "database" ∈ s0 \/ name_in key ["db"; "database"] = true).
Proof.
  key_cases key; try destruct (ParsePort value); cbn;
    intros [= <- <-] || (intros; done); (split; [done|set_solver]).
Qed.

Lemma assign_option_unix_socket key value r0 s0 r s :
  assign_option key value r0 s0 = Ok (r, s) ->
  (if name_in key ["socket"; "unix_socket"] then unix_socket r = value
   else unix_socket r = unix_socket r0) /\
  ("socket" ∈ s
   <-> "socket" ∈ s0 \/ name_in key ["socket"; "unix_socket"] = true).
Proof.
  key_cases key; try destruct (ParsePort value); cbn;
    intros [= <- <-] || (intros; done); (split; [done|set_solver]).
Qed.

Lemma assign_option_workload key value r0 s0 r s :
  assign_option key value r0 s0 = Ok (r, s) ->
  (if name_in key ["workload"] then workload r = value
   else workload r = workload r0) /\
  ("workload" ∈ s <-> "workload" ∈ s0 \/ name_in key ["workload"] = true).
Proof.
  key_cases key; try destruct (ParsePort value); cbn;
    intros [= <- <-] || (intros; done); (split; [done|set_solver]).
Qed.

Lemma assign_option_port_value key value r0 s0 r s :
  assign_option key value r0 s0 = Ok (r, s) ->
  (if name_in key ["port"] then ParsePort value = Ok (port r)
   else port r = port r0) /\
  ("port" ∈ s <-> "port" ∈ s0 \/ name_in key ["port"] = true).
Proof.
  key_cases key; try destruct (ParsePort value); cbn;
    intros [= <- <-] || (intros; done); (split; [done|set_solver]).
Qed.

Lemma assign_option_client_flag key value r0 s0 r s :
  assign_option key value r0 s0 = Ok (r, s) ->
  client_flag r = client_flag r0.
Proof.
  key_cases key; try destruct (ParsePort value); cbn;
    intros [= <- <-] || (intros; done); done.
Qed.

Lemma assign_option_succeeds key value r s :
  succeeds (assign_option key value r s)
  = (recognized_key key &&
     (if String.eqb key "port" then succeeds (ParsePort value) else true))%bool.
Proof.
  key_cases key; try done. by destruct (ParsePort value).
Qed.

Section Member.

Context {A : Type} (get : MySQLConnectionParameters -> A)
  (read : string -> A -> Prop) (spellings : list string) (opt : string).

Hypothesis step : forall key value r0 s0 r s,
  assign_option key value r0 s0 = Ok (r, s) ->
  (if name_in key spellings then read value (get r) else get r = get r0) /\
  (opt ∈ s <-> opt ∈ s0 \/ name_in key spellings = true).

(** A member after the assignments: what the last pair with one of its
    keys gives, or what it was. *)
Lemma assign_all_member (pairs : list WrittenPair) :
  forall r0 s0 r s,
    assign_all pairs r0 s0 = Ok (r, s) ->
    match dsn_value spellings pairs with
    | Some v => read v (get r)
    | None => get r = get r0
    end /\
    (opt ∈ s <-> opt ∈ s0 \/ is_Some (dsn_value spellings pairs)).
Proof.
  induction pairs as [|p pairs IH]; intros r0 s0 r s H.
  { injection H as <- <-. split; [done|]. cbn. split; [tauto|].
    intros [?|[? ?]]; done. }
  cbn [assign_all dsn_value] in *.
  destruct (assign_option (Lower (pair_key p)) (pair_value p) r0 s0)
    as [[r1 s1]|e] eqn:E; [|done].
  cbn in H. apply IH in H as [Hget Hin]. apply step in E as [Hget1 Hin1].
  destruct (dsn_value spellings pairs) as [v|].
  { split; [done|]. rewrite Hin. split; [intros _|intros _]; right; by eexists. }
  destruct (name_in (Lower (pair_key p)) spellings).
  - split; [by rewrite Hget|]. rewrite Hin, Hin1.
    split; [intros _|intros _]; [right; by eexists|by left; right].
  - split; [congruence|]. rewrite Hin, Hin1. split.
    + intros [[?|?]|[? ?]]; try done. by left.
    + intros [?|[? ?]]; [|done]. by left; left.
Qed.

End Member.

Lemma assign_all_client_flag (pairs : list WrittenPair) :
  forall r0 s0 r s,
    assign_all pairs r0 s0 = Ok (r, s) -> client_flag r = client_flag r0.
Proof.
  induction pairs as [|p pairs IH]; intros r0 s0 r s H.
  { by injection H as <- <-. }
  cbn [assign_all] in H.
  destruct (assign_option (Lower (pair_key p)) (pair_value p) r0 s0)
    as [[r1 s1]|e] eqn:E; [|done].
  cbn in H. apply IH in H. apply assign_option_client_flag in E. congruence.
Qed.

Lemma assign_all_succeeds (pairs : list WrittenPair) :
  forall r s, succeeds (assign_all pairs r s) = forallb pair_accepted pairs.
Proof.
  induction pairs as [|p pairs IH]; intros r s; [done|].
  cbn [assign_all forallb]. unfold pair_accepted at 1.
  rewrite <- (assign_option_succeeds _ _ r s).
  destruct (assign_option (Lower (pair_key p)) (pair_value p) r s)
    as [[r1 s1]|e]; [|done].
  cbn. apply IH.
Qed.

(** *** Every DSN that is taken is written that way *)

Lemma skip_spaces_split (s : string) :
  exists sp, s = sp +:+ skip_spaces s /\ all_space sp = true.
Proof.
  induction s as [|c s IH]; [by exists EmptyString|].
  cbn [skip_spaces]. destruct (CharacterIsSpace c) eqn:E.
  - destruct IH as (sp & Hs & Hsp). exists (String c sp).
    split; [rewrite append_cons; by f_equal|]. cbn. by rewrite E.
  - by exists EmptyString.
Qed.

Lemma skip_spaces_head (s : string) (c : ascii) (rest : string) :
  skip_spaces s = String c rest -> CharacterIsSpace c = false.
Proof.
  induction s as [|d s IH]; [done|]. cbn [skip_spaces].
  destruct (CharacterIsSpace d) eqn:E; [done|]. by intros [= <- _].
Qed.

Lemma scan_unquoted_split (rest : string) :
  forall result rest' result',
    scan_unquoted rest result = (rest', result') ->
    exists tok,
      rest = tok +:+ rest' /\ all_plain tok = true /\
      result' = result +:+ tok /\ stops rest' = true.
Proof.
  induction rest as [|c rest IH]; intros result rest' result';
    cbn [scan_unquoted].
  { intros [= <- <-]. exists EmptyString. by rewrite !append_empty_r. }
  destruct (Ascii.eqb c "=") eqn:E1.
  { intros [= <- <-]. exists EmptyString. rewrite !append_empty_r.
    repeat split. cbn. unfold plain. by rewrite E1. }
  destruct (CharacterIsSpace c) eqn:E2.
  { intros [= <- <-]. exists EmptyString. rewrite !append_empty_r.
    repeat split. cbn. unfold plain. by rewrite E1, E2. }
  intros H. apply IH in H as (tok & -> & Hp & -> & Hs).
  exists (String c tok). split; [done|].
  split; [cbn; unfold plain; by rewrite E1, E2|].
  split; [by rewrite append_assoc|done].
Qed.

Lemma scan_quoted_split (dsn : string) (n : nat) :
  forall rest result rest' result',
    String.length rest <= n ->
    scan_quoted dsn rest result = Ok (rest', result') ->
    exists v, rest = dsn_escape v +:+ String dquote rest' /\
              result' = result +:+ v.
Proof.
  induction n as [|n IH]; intros rest result rest' result' Hn H.
  { destruct rest; [done|simpl in Hn; lia]. }
  destruct rest as [|c rest1]; [done|]. simpl in H, Hn.
  destruct (Ascii.eqb_spec c dquote) as [->|Hq].
  { injection H as <- <-. exists EmptyString. by rewrite !append_empty_r. }
  destruct (Ascii.eqb_spec c backslash) as [->|Hb].
  - destruct rest1 as [|d rest2]; [done|].
    destruct (negb (Ascii.eqb d backslash) && negb (Ascii.eqb d dquote))%bool
      eqn:Ed; [done|].
    apply IH in H as (v & -> & ->); [|simpl in *; lia].
    exists (String d v). split; [|by rewrite append_assoc].
    cbn [dsn_escape].
    destruct (Ascii.eqb d backslash); [done|].
    by destruct (Ascii.eqb d dquote).
  - apply IH in H as (v & -> & ->); [|lia].
    exists (String c v). split; [|by rewrite append_assoc].
    cbn [dsn_escape].
    rewrite (proj2 (Ascii.eqb_neq c backslash)) by done.
    by rewrite (proj2 (Ascii.eqb_neq c dquote)) by done.
Qed.

Lemma ParseValue_false (dsn rest rest' value : string) :
  ParseValue dsn rest EmptyString = Ok (false, rest', value) ->
  all_space rest = true.
Proof.
  unfold ParseValue. destruct (skip_spaces_split rest) as (sp & Hs & Hsp).
  destruct (skip_spaces rest) as [|c rest1].
  - intros _. rewrite Hs. by rewrite append_empty_r.
  - destruct (Ascii.eqb c dquote).
    + by destruct (scan_quoted dsn rest1 EmptyString) as [[? ?]|?].
    + by destruct (scan_unquoted (String c rest1) EmptyString).
Qed.

(** What [ParseValue] has read: white space and a token; an unquoted token
    is empty only in front of an equality sign. *)
Lemma ParseValue_true (dsn rest rest' value : string) :
  ParseValue dsn rest EmptyString = Ok (true, rest', value) ->
  exists sp t,
    rest = sp +:+ token_text t +:+ rest' /\ all_space sp = true /\
    token_value t = value /\
    match t with
    | Quoted _ => True
    | Unquoted s =>
        stops rest' = true /\
        (unquoted s = true \/ s = EmptyString /\ exists x, rest' = String "="%char x)
    end.
Proof.
  unfold ParseValue. destruct (skip_spaces_split rest) as (sp & Hs & Hsp).
  pose proof (skip_spaces_head rest) as Hhead.
  destruct (skip_spaces rest) as [|c rest1]; [done|].
  specialize (Hhead c rest1 eq_refl).
  destruct (Ascii.eqb_spec c dquote) as [->|Hq].
  - destruct (scan_quoted dsn rest1 EmptyString) as [[r q]|e] eqn:E; [|done].
    cbn. intros [= <- <-].
    apply (scan_quoted_split _ _ _ _ _ _ (le_n _)) in E as (v & -> & ->).
    exists sp, (Quoted v). split; [|done].
    rewrite Hs. unfold token_text, dsn_quote.
    by rewrite append_cons, append_assoc.
  - destruct (scan_unquoted (String c rest1) EmptyString) as [r q] eqn:E.
    intros [= <- <-]. pose proof E as E'.
    apply scan_unquoted_split in E as (tok & Htok & Hp & -> & Hstop).
    exists sp, (Unquoted tok). split; [by rewrite Hs, Htok|].
    split; [done|]. split; [done|]. split; [done|].
    destruct tok as [|d tok].
    + right. split; [done|]. change (EmptyString +:+ r) with r in Htok.
      subst r. exists rest1. f_equal. cbn in Hstop. unfold plain in Hstop.
      rewrite Hhead in Hstop. by destruct (Ascii.eqb_spec c "="%char).
    + left. rewrite append_cons in Htok. injection Htok as <- _.
      unfold unquoted. rewrite Hp.
      by rewrite (proj2 (Ascii.eqb_neq c dquote)) by done.
Qed.

(** A rest that opens with an equality sign is never taken: the key in
    front of it is empty. *)
Lemma parse_options_equality_sign (fuel : nat) (dsn x : string) r s r' s' :
  parse_options fuel dsn (String "="%char x) r s <> Some (Ok (r', s')).
Proof.
  destruct fuel as [|fuel]; [done|]. cbn [parse_options].
  change (ParseValue dsn (String "="%char x) EmptyString)
    with (Ok (true, String "="%char x, EmptyString) : Result _).
  cbn beta iota.
  destruct (ParseValue dsn x EmptyString) as [[[[] rest3] value]|e]; done.
Qed.

Lemma parse_options_written (fuel : nat) :
  forall dsn rest r s r' s',
    parse_options fuel dsn rest r s = Some (Ok (r', s')) ->
    exists pairs trailing,
      rest = pairs_text pairs +:+ trailing /\
      pairs_ok pairs trailing = true /\ all_space trailing = true.
Proof.
  induction fuel as [|fuel IH]; intros dsn rest r s r' s' H; [done|].
  cbn [parse_options] in H.
  destruct rest as [|c0 rest0]; [by exists [], EmptyString|].
  destruct (ParseValue dsn (String c0 rest0) EmptyString)
    as [[[b rest1] key]|e] eqn:E1; [|done].
  destruct b.
  2:{ exists [], (String c0 rest0). split; [done|]. split; [done|].
      by apply ParseValue_false in E1. }
  destruct rest1 as [|c1 rest2]; [done|].
  destruct (Ascii.eqb_spec c1 "="%char) as [->|Hne].
  2:{ destruct c1 as [[] [] [] [] [] [] [] []]; try done. }
  destruct (ParseValue dsn rest2 EmptyString) as [[[b2 rest3] value]|e] eqn:E2;
    [|done].
  destruct b2; [|done].
  destruct (assign_option (Lower key) value r s) as [[r1 s1]|e] eqn:Ea;
    [|done].
  apply ParseValue_true in E1 as (sp1 & tk & Hrest & Hsp1 & Hkey & Htk).
  apply ParseValue_true in E2 as (sp2 & tv & Hrest2 & Hsp2 & Hvalue & Htv).
  pose proof H as Hloop.
  apply IH in H as (pairs & trailing & Hrest3 & Hok & Htr).
  exists ({| before_key := sp1; key_token := tk;
             before_value := sp2; value_token := tv |} :: pairs), trailing.
  split; [|split; [|done]].
  - cbn [pairs_text]. unfold pair_text; cbn.
    rewrite Hrest, Hrest2, Hrest3. by rewrite !append_assoc.
  - cbn [pairs_ok]. rewrite Hok, andb_true_r. apply andb_true_intro. split.
    + unfold pair_ok; cbn [before_key key_token before_value value_token].
      rewrite Hsp1, Hsp2.
      assert (token_ok tk = true) as ->.
      { destruct tk as [k|k]; [|done]. cbn in *.
        destruct Htk as [_ [Hu|[-> _]]]; [done|]. subst key. by cbn in Ea. }
      assert (token_ok tv = true) as ->; [|done].
      destruct tv as [v|v]; [|done]. cbn in *.
      destruct Htv as [_ [Hu|[_ [x ->]]]]; [done|].
      by apply parse_options_equality_sign in Hloop.
    + unfold separated; cbn. destruct tv as [v|v]; [|done].
      rewrite <- Hrest3. destruct Htv as [Hstop _].
      destruct rest3 as [|c rest3]; [done|].
      cbn in Hstop. unfold plain in Hstop.
      destruct (Ascii.eqb_spec c "="%char) as [->|Hc].
      { by apply parse_options_equality_sign in Hloop. }
      by destruct (CharacterIsSpace c).
Qed.

Lemma parse_dsn_read (dsn : string) :
  succeeds (parse_dsn dsn) = true ->
  exists pairs trailing,
    well_written pairs trailing = true /\ dsn = dsn_text pairs trailing.
Proof.
  intros H. pose proof (parse_dsn_fuel dsn) as Hf.
  destruct (parse_dsn dsn) as [[r s]|e]; [|done].
  apply parse_options_written in Hf as (pairs & trailing & Hd & Hok & Htr).
  exists pairs, trailing. unfold well_written. by rewrite Hok, Htr.
Qed.

End WrittenDsn.

Section WrittenDsnResult.

Lemma member_choice {A} (opt : string) (set_options : gset string)
    (given : option string) (x y : A) :
  (opt ∈ set_options <-> opt ∈ (∅ : gset string) \/ is_Some given) ->
  (if bool_decide (opt ∈ set_options) then x else y)
  = match given with Some _ => x | None => y end.
Proof.
  intros H. destruct given as [v|].
  - rewrite bool_decide_eq_true_2; [done|]. apply H. right. by eexists.
  - rewrite bool_decide_eq_false_2; [done|]. rewrite H.
    intros [?|[? ?]]; [set_solver|done].
Qed.

(** The members of the record for a DSN as it is written. *)
Lemma ParseConnectionParameters_members
    (getenv : Environment) (pairs : list WrittenPair) (trailing : string)
    (r : MySQLConnectionParameters) :
  well_written pairs trailing = true ->
  ParseConnectionParameters getenv (dsn_text pairs trailing) = Ok r ->
  host r = dsn_or_env getenv pairs ["host"] "MYSQL_HOST" /\
  user r = dsn_or_env getenv pairs ["user"] "MYSQL_USER" /\
  passwd r = dsn_or_env getenv pairs ["passwd"; "password"] "MYSQL_PWD" /\
  db r = dsn_or_env getenv pairs ["db"; "database"] "MYSQL_DATABASE" /\
  unix_socket r
  = dsn_or_env getenv pairs ["socket"; "unix_socket"] "MYSQL_UNIX_PORT" /\
  workload r = default EmptyString (dsn_value ["workload"] pairs) /\
  match dsn_value ["port"] pairs with
  | Some v => ParsePort v = Ok (port r)
  | None =>
      match getenv "MYSQL_TCP_PORT" with
      | Some v => ParsePort v = Ok (port r)
      | None => port r = 0%Z
      end
  end /\
  client_flag r = client_flag default_parameters.
Proof.
  intros Hw H. pose proof (parse_dsn_written pairs trailing Hw) as Hd.
  destruct (assign_all pairs default_parameters ∅)
    as [[explicit set_options]|e] eqn:Ea.
  2:{ by rewrite (ParseConnectionParameters_dsn_error _ _ _ Hd) in H. }
  rewrite (ParseConnectionParameters_filled getenv _ _ _ Hd) in H.
  destruct (filled_port getenv explicit set_options) as [p|e] eqn:Ep;
    cbn in H; [|done].
  injection H as <-.
  pose proof (assign_all_member host (fun v x => x = v) ["host"] "host"
                assign_option_host pairs _ _ _ _ Ea) as [Hhost Hhost_in].
  pose proof (assign_all_member user (fun v x => x = v) ["user"] "user"
                assign_option_user pairs _ _ _ _ Ea) as [Huser Huser_in].
  pose proof (assign_all_member passwd (fun v x => x = v)
                ["passwd"; "password"] "password"
                assign_option_passwd pairs _ _ _ _ Ea) as [Hpasswd Hpasswd_in].
  pose proof (assign_all_member db (fun v x => x = v)
                ["db"; "database"] "database"
                assign_option_db pairs _ _ _ _ Ea) as [Hdb Hdb_in].
  pose proof (assign_all_member unix_socket (fun v x => x = v)
                ["socket"; "unix_socket"] "socket"
                assign_option_unix_socket pairs _ _ _ _ Ea)
    as [Hsocket Hsocket_in].
  pose proof (assign_all_member workload (fun v x => x = v)
                ["workload"] "workload"
                assign_option_workload pairs _ _ _ _ Ea) as [Hworkload _].
  pose proof (assign_all_member port (fun v x => ParsePort v = Ok x)
                ["port"] "port"
                assign_option_port_value pairs _ _ _ _ Ea) as [Hport Hport_in].
  unfold filled_port in Ep. rewrite (member_choice _ _ _ _ _ Hport_in) in Ep.
  unfold filled, dsn_or_env;
    cbn [host user passwd db port unix_socket workload client_flag].
  rewrite (member_choice _ _ _ _ _ Hhost_in), (member_choice _ _ _ _ _ Huser_in),
    (member_choice _ _ _ _ _ Hpasswd_in), (member_choice _ _ _ _ _ Hdb_in),
    (member_choice _ _ _ _ _ Hsocket_in).
  repeat split.
  - by destruct (dsn_value ["host"] pairs).
  - by destruct (dsn_value ["user"] pairs).
  - by destruct (dsn_value ["passwd"; "password"] pairs).
  - by destruct (dsn_value ["db"; "database"] pairs).
  - by destruct (dsn_value ["socket"; "unix_socket"] pairs).
  - by destruct (dsn_value ["workload"] pairs).
  - destruct (dsn_value ["port"] pairs); [congruence|].
    destruct (getenv "MYSQL_TCP_PORT"); congruence.
Qed.

(** When the call returns for a DSN as it is written. *)
Lemma ParseConnectionParameters_returns
    (getenv : Environment) (pairs : list WrittenPair) (trailing : string) :
  well_written pairs trailing = true ->
  succeeds (ParseConnectionParameters getenv (dsn_text pairs trailing)) = true
  <-> forallb pair_accepted pairs = true /\
      (dsn_value ["port"] pairs = None ->
       forall v, getenv "MYSQL_TCP_PORT" = Some v ->
                 succeeds (ParsePort v) = true).
Proof.
  intros Hw. pose proof (parse_dsn_written pairs trailing Hw) as Hd.
  rewrite <- (assign_all_succeeds pairs default_parameters ∅).
  destruct (assign_all pairs default_parameters ∅)
    as [[explicit set_options]|e] eqn:Ea.
  2:{ rewrite (ParseConnectionParameters_dsn_error _ _ _ Hd). cbn.
      split; [done|]. by intros [? _]. }
  rewrite (ParseConnectionParameters_filled getenv _ _ _ Hd).
  pose proof (assign_all_member port (fun v x => ParsePort v = Ok x)
                ["port"] "port"
                assign_option_port_value pairs _ _ _ _ Ea) as [_ Hport_in].
  unfold filled_port. rewrite (member_choice _ _ _ _ _ Hport_in).
  destruct (dsn_value ["port"] pairs) as [v|]; cbn.
  { split; [done|]. by intros _. }
  destruct (getenv "MYSQL_TCP_PORT") as [v|]; cbn.
  - destruct (ParsePort v) as [p|e] eqn:Ep; cbn.
    + split; [|done]. intros _. split; [done|]. intros _ ? [= <-].
      by rewrite Ep.
    + split; [done|]. intros [_ H]. specialize (H eq_refl _ eq_refl).
      by rewrite Ep in H.
  - split; [|done]. intros _. split; [done|]. by intros _ ? ?.
Qed.

End WrittenDsnResult.

(** C2: a DSN is pairs, each white space, a key, the equality sign, white
    space and a value, key and value unquoted or between double quotes, and
    trailing white space; every DSN for which the call returns is written
    that way.  For every such DSN and every environment, the call returns
    when every key is known in lower case, every port value is a port, and
    the port variable, when the DSN gives no port, is a port if it is there.
    In the record it returns, a member for which the DSN has a pair has the
    value of the last such pair, whatever the environment holds, so two
    environments give the same value; a member for which it has none has the
    value of its environment variable when the variable is there, and is
    empty or zero when not; the workload has no variable. *)
Theorem ParseConnectionParameters_dsn_then_environment (getenv : Environment) :
  (forall pairs trailing,
     well_written pairs trailing = true ->
     let dsn := dsn_text pairs trailing in
     (succeeds (ParseConnectionParameters getenv dsn) = true
      <-> forallb pair_accepted pairs = true /\
          (dsn_value ["port"] pairs = None ->
           forall v, getenv "MYSQL_TCP_PORT" = Some v ->
                     succeeds (ParsePort v) = true)) /\
     forall r,
       ParseConnectionParameters getenv dsn = Ok r ->
       host r = dsn_or_env getenv pairs ["host"] "MYSQL_HOST" /\
       user r = dsn_or_env getenv pairs ["user"] "MYSQL_USER" /\
       passwd r = dsn_or_env getenv pairs ["passwd"; "password"] "MYSQL_PWD" /\
       db r = dsn_or_env getenv pairs ["db"; "database"] "MYSQL_DATABASE" /\
       unix_socket r
       = dsn_or_env getenv pairs ["socket"; "unix_socket"] "MYSQL_UNIX_PORT" /\
       workload r = default EmptyString (dsn_value ["workload"] pairs) /\
       match dsn_value ["port"] pairs with
       | Some v => ParsePort v = Ok (port r)
       | None =>
           match getenv "MYSQL_TCP_PORT" with
           | Some v => ParsePort v = Ok (port r)
           | None => port r = 0
           end
       end /\
       forall getenv' r',
         ParseConnectionParameters getenv' dsn = Ok r' ->
         (is_Some (dsn_value ["host"] pairs) -> host r' = host r) /\
         (is_Some (dsn_value ["user"] pairs) -> user r' = user r) /\
         (is_Some (dsn_value ["passwd"; "password"] pairs) ->
          passwd r' = passwd r) /\
         (is_Some (dsn_value ["db"; "database"] pairs) -> db r' = db r) /\
         (is_Some (dsn_value ["socket"; "unix_socket"] pairs) ->
          unix_socket r' = unix_socket r) /\
         (is_Some (dsn_value ["port"] pairs) -> port r' = port r) /\
         workload r' = workload r) /\
  (forall dsn,
     succeeds (ParseConnectionParameters getenv dsn) = true ->
     exists pairs trailing,
       well_written pairs trailing = true /\ dsn = dsn_text pairs trailing).
Proof.
  split.
  - intros pairs trailing Hw dsn.
    split; [by apply ParseConnectionParameters_returns|].
    intros r Hr.
    destruct (ParseConnectionParameters_members getenv pairs trailing r Hw Hr)
      as (Hh & Hu & Hp & Hd & Hs & Hwl & Hport & _).
    do 7 (split; [done|]).
    intros getenv' r' Hr'.
    destruct (ParseConnectionParameters_members getenv' pairs trailing r' Hw Hr')
      as (Hh' & Hu' & Hp' & Hd' & Hs' & Hwl' & Hport' & _).
    unfold dsn_or_env in *.
    repeat split; try (intros [v Hv]; rewrite Hv in *; congruence).
    congruence.
  - intros dsn H. apply parse_dsn_read.
    unfold ParseConnectionParameters in H.
    by destruct (parse_dsn dsn).
Qed.

Lemma ParseConnectionParameters_dsn_then_environment_witness :
  let getenv : Environment := fun var =>
    if String.eqb var "MYSQL_HOST" then Some "elsewhere"
    else if String.eqb var "MYSQL_USER" then Some "root"
    else if String.eqb var "MYSQL_TCP_PORT" then Some "3307"
    else None in
  let pairs :=
    [ {| before_key := EmptyString; key_token := Unquoted "HOST";
         before_value := EmptyString; value_token := Unquoted "h" |};
      {| before_key := " "; key_token := Unquoted "db";
         before_value := EmptyString; value_token := Quoted "d 1" |};
      {| before_key := EmptyString; key_token := Unquoted "host";
         before_value := " "; value_token := Unquoted "h2" |} ] in
  succeeds (ParseConnectionParameters getenv (dsn_text pairs " ")) = true /\
  forall r,
    ParseConnectionParameters getenv (dsn_text pairs " ") = Ok r ->
    host r = "h2" /\ user r = "root" /\ db r = "d 1" /\
    ParsePort "3307" = Ok (port r).
Proof.
  intros getenv pairs.
  destruct (proj1 (ParseConnectionParameters_dsn_then_environment getenv)
              pairs " " eq_refl) as [Hreturns Hmembers].
  split.
  - apply Hreturns. split; [reflexivity|]. intros _ v [= <-]. reflexivity.
  - intros r Hr.
    destruct (Hmembers r Hr) as (Hh & Hu & _ & Hd & _ & _ & Hport & _).
    repeat split; assumption.
Defined.


(** ** Connect *)

Section ConnectTheorems.

Lemma db_with_workload_host (config : MySQLConnectionParameters) :
  db_with_workload config = host config +:+ workload_suffix config.
Proof.
  unfold db_with_workload, workload_suffix.
  destruct (workload config) as [|c w].
  - symmetry. apply append_empty_r.
  - cbn. by destruct (has_char "?" (host config)).
Qed.

Lemma db_with_workload_ignores_db other config :
  db_with_workload (set_db other config) = db_with_workload config.
Proof. done. Qed.

End ConnectTheorems.

(** C9: whatever the DSN sets as database, every call that [Connect] makes
    to the driver has, as its database argument, the host string with the
    workload parameter behind it when a workload tag is set (null when that
    string is empty); the calls are the same for any other value of the
    database member, and there is a call once the handle is allocated and
    the DSN parses. *)
Theorem Connect_database_argument_is_host
    (mysql_init : bool) (mysql_real_connect : ConnectCall -> bool)
    (mysql_error : string) (getenv : Environment) (dsn : string)
    (config : MySQLConnectionParameters) :
  ParseConnectionParameters getenv dsn = Ok config ->
  let made :=
    (Connect mysql_init mysql_real_connect mysql_error getenv dsn).1 in
  (forall c, c ∈ made ->
     call_db c = c_str_or_null (host config +:+ workload_suffix config) /\
     forall other,
       c ∈ [first_call (set_db other config); retry_call (set_db other config)])
  /\ (mysql_init = true -> made <> []).
Proof.
  intros H made. subst made. unfold Connect. rewrite H.
  rewrite <- db_with_workload_host.
  destruct mysql_init; cbn [negb]; cbv iota.
  2:{ split; [|done]. intros c Hc. by apply elem_of_nil in Hc. }
  split.
  - intros c Hc.
    assert (c = first_call config \/ c = retry_call config) as Hcases.
    { destruct (mysql_real_connect (first_call config));
        [|destruct (_ || _)%bool; [destruct (mysql_real_connect _)|]];
        cbn in Hc; set_solver. }
    destruct Hcases as [-> | ->]; (split; [done|]); intros other;
      set_solver.
  - intros _.
    destruct (mysql_real_connect (first_call config));
      [|destruct (_ || _)%bool; [destruct (mysql_real_connect _)|]]; done.
Qed.

Lemma Connect_database_argument_is_host_witness :
  let made :=
    (Connect true (fun _ => true) EmptyString (fun _ => None)
             "host=h db=shop workload=olap").1 in
  (forall c, c ∈ made ->
     call_db c = Some "h?workload=olap" /\
     forall other,
       c ∈ [first_call (set_db other
              {| host := "h"; user := EmptyString; passwd := EmptyString;
                 db := "shop"; port := 0; unix_socket := EmptyString;
                 workload := "olap"; client_flag := 69664 |});
            retry_call (set_db other
              {| host := "h"; user := EmptyString; passwd := EmptyString;
                 db := "shop"; port := 0; unix_socket := EmptyString;
                 workload := "olap"; client_flag := 69664 |})])
  /\ (true = true -> made <> []).
Proof.
  exact (Connect_database_argument_is_host true (fun _ => true) EmptyString
           (fun _ => None) "host=h db=shop workload=olap"
           {| host := "h"; user := EmptyString; passwd := EmptyString;
              db := "shop"; port := 0; unix_socket := EmptyString;
              workload := "olap"; client_flag := 69664 |} eq_refl).
Defined.

(** ** The catalog set *)

Import MySQLCatalogSet.

Section CatalogSetFlags.

Lemma CreateEntry_flags set entry :
  is_loaded (CreateEntry set entry).2 = is_loaded set /\
  load_calls (CreateEntry set entry).2 = load_calls set.
Proof. unfold CreateEntry. by destruct (name entry). Qed.

Lemma create_all_flags found : forall set,
  is_loaded (create_all set found).2 = is_loaded set /\
  load_calls (create_all set found).2 = load_calls set.
Proof.
  induction found as [|entry found IH]; intros set; [done|].
  cbn [create_all].
  pose proof (CreateEntry_flags set entry) as [Hl Hc].
  destruct (CreateEntry set entry) as [[r|e] set1]; cbn in *; [|done].
  destruct (IH set1) as [-> ->]. done.
Qed.

Lemma LoadEntries_flags context set :
  is_loaded (LoadEntries context set).2 = is_loaded set /\
  load_calls (LoadEntries context set).2 = S (load_calls set).
Proof.
  unfold LoadEntries.
  match goal with |- context [create_all ?s ?l] =>
    pose proof (create_all_flags l s) as [Hl Hc];
    destruct (create_all s l) as [[r|e] set1] end; cbn in *; [|done].
  by destruct (discovery_error context).
Qed.

Lemma load_if_needed_unloaded context set :
  is_loaded set = false ->
  load_if_needed context set = LoadEntries context (mark_loaded set).
Proof. unfold load_if_needed. by intros ->. Qed.

Lemma load_if_needed_loaded context set :
  is_loaded set = true -> load_if_needed context set = (Ok tt, set).
Proof. unfold load_if_needed. by intros ->. Qed.

Lemma load_if_needed_flags context set :
  is_loaded (load_if_needed context set).2 = true.
Proof.
  destruct (is_loaded set) eqn:E.
  - by rewrite load_if_needed_loaded.
  - rewrite load_if_needed_unloaded by done.
    by destruct (LoadEntries_flags context (mark_loaded set)) as [-> _].
Qed.

Lemma GetEntry_state context set name :
  (GetEntry context set name).2 = (load_if_needed context set).2.
Proof. unfold GetEntry. by destruct (load_if_needed context set) as [[]]. Qed.

Lemma Scan_state {A} context set (callback : CatalogEntry -> A -> A) acc :
  (Scan context set callback acc).2 = (load_if_needed context set).2.
Proof. unfold Scan. by destruct (load_if_needed context set) as [[]]. Qed.

(** On a loaded set no call but [ClearEntries] touches the flag or runs the
    discovery. *)
Lemma call_loaded set c :
  is_loaded set = true -> is_clear c = false ->
  is_loaded (call set c) = true /\ load_calls (call set c) = load_calls set.
Proof.
  intros Hl Hc. destruct c; cbn [call]; try done.
  - destruct (CreateEntry_flags set entry) as [-> ->]. done.
  - unfold DropEntry. by destruct (Query context (drop_query info)).
  - by rewrite GetEntry_state, load_if_needed_loaded.
  - by rewrite Scan_state, load_if_needed_loaded.
Qed.

Lemma calls_loaded cs : forall set,
  is_loaded set = true -> forallb (fun c => negb (is_clear c)) cs = true ->
  is_loaded (calls set cs) = true /\ load_calls (calls set cs) = load_calls set.
Proof.
  induction cs as [|c cs IH]; intros set Hl Hcs; [done|].
  cbn in Hcs. apply andb_prop in Hcs as [Hc Hcs].
  apply negb_true_iff in Hc.
  destruct (call_loaded set c Hl Hc) as [Hl' Hc'].
  unfold calls in *. cbn [fold_left].
  destruct (IH (call set c) Hl' Hcs) as [-> ->]. done.
Qed.

End CatalogSetFlags.

(** C5: when the query channel raises on the DROP statement, [DropEntry]
    raises the same exception and leaves the set as it was, so the entry is
    still there and [GetEntry] gives what it gave before; an entry is gone
    after [DropEntry] only when the statement did not raise. *)
Theorem DropEntry_failed_query_keeps_the_entry
    (context : ClientContext) (set : MySQLCatalogSet) (info : DropInfo)
    (e : Exception) :
  Query context (drop_query info) = Some e ->
  DropEntry context set info = (Throw e, set) /\
  (forall context' name,
     GetEntry context' (DropEntry context set info).2 name
     = GetEntry context' set name) /\
  (forall context0 entry,
     entries set !! info_name info = Some entry ->
     entries (DropEntry context0 set info).2 !! info_name info = None ->
     Query context0 (drop_query info) = None /\
     (DropEntry context0 set info).1 = Ok tt).
Proof.
  intros Hq. unfold DropEntry. rewrite Hq. repeat split; try done.
  - destruct (Query context0 (drop_query info)); [|done]. cbn in *. congruence.
  - destruct (Query context0 (drop_query info)); [|done]. cbn in *. congruence.
Qed.

Lemma DropEntry_failed_query_keeps_the_entry_witness :
  let context :=
    {| discovered := []; discovery_error := None;
       Query := fun _ => Some (IOException "server has gone away") |} in
  let entry := {| name := "orders"; type := TABLE_ENTRY; oid := 7 |} in
  let set := mark_loaded (CreateEntry new_set entry).2 in
  let info :=
    {| info_type := TABLE_ENTRY; info_name := "orders";
       info_if_not_found := THROW_EXCEPTION; info_cascade := false |} in
  DropEntry context set info = (Throw (IOException "server has gone away"), set)
  /\ (GetEntry context (DropEntry context set info).2 "orders").1
     = Ok (Some entry).
Proof.
  intros context entry set info.
  destruct (DropEntry_failed_query_keeps_the_entry context set info
              (IOException "server has gone away") eq_refl) as (H1 & H2 & _).
  split; [exact H1|]. rewrite H2. reflexivity.
Defined.

(** *** What the calls keep *)

Section CatalogSetInvariants.

Lemma lookup_map_insert_new {V} (k k' : string) (v : V) (m : gmap string V) :
  map_insert_new k v m !! k'
  = match m !! k' with
    | Some x => Some x
    | None => if decide (k = k') then Some v else None
    end.
Proof.
  unfold map_insert_new. destruct (m !! k) as [x|] eqn:E.
  - destruct (m !! k') eqn:E'; [done|]. case_decide; [congruence|done].
  - destruct (decide (k = k')) as [->|Hne].
    + by rewrite lookup_insert_eq, E.
    + rewrite lookup_insert_ne by done. by destruct (m !! k').
Qed.

(** The lookup of the case insensitive map goes by the lower-cased key. *)
Lemma case_insensitive_find {V} (m : case_insensitive_map_t V) (k : string) :
  m !! k = snd <$> elements_of m !! Lower k.
Proof. reflexivity. Qed.


Lemma elem_of_case_insensitive_elements {V} (m : case_insensitive_map_t V)
    (k : string) (v : V) :
  (k, v) ∈ case_insensitive_elements m
  <-> exists l, elements_of m !! l = Some (k, v).
Proof.
  unfold case_insensitive_elements. rewrite list_elem_of_fmap. split.
  - intros ([l x] & -> & H). exists l. by apply elem_of_map_to_list in H.
  - intros [l H]. exists (l, (k, v)). split; [done|].
    by apply elem_of_map_to_list.
Qed.

Lemma CreateEntry_elements set entry l :
  elements_of (entries (CreateEntry set entry).2) !! l
  = match elements_of (entries set) !! l with
    | Some x => Some x
    | None =>
        if decide (Lower (name entry) = l /\ name entry <> EmptyString)
        then Some (name entry, entry) else None
    end.
Proof.
  unfold CreateEntry. destruct (name entry) as [|c n] eqn:E; cbn.
  - destruct (elements_of (entries set) !! l); [done|].
    case_decide; [tauto|done].
  - rewrite lookup_map_insert_new.
    destruct (elements_of (entries set) !! l); [done|].
    repeat case_decide; try done; naive_solver.
Qed.

Lemma CreateEntry_entry_map set entry l :
  elements_of (entry_map (CreateEntry set entry).2) !! l
  = match elements_of (entry_map set) !! l with
    | Some x => Some x
    | None =>
        if decide (Lower (name entry) = l /\ name entry <> EmptyString)
        then Some (name entry, name entry) else None
    end.
Proof.
  unfold CreateEntry. destruct (name entry) as [|c n] eqn:E; cbn.
  - destruct (elements_of (entry_map set) !! l); [done|].
    case_decide; [tauto|done].
  - rewrite lookup_map_insert_new.
    destruct (elements_of (entry_map set) !! l); [done|].
    repeat case_decide; try done; naive_solver.
Qed.

Lemma CreateEntry_keeps_record set entry k :
  is_Some (entry_map set !! k) ->
  is_Some (entry_map (CreateEntry set entry).2 !! k).
Proof.
  rewrite !case_insensitive_find, CreateEntry_entry_map.
  destruct (elements_of (entry_map set) !! Lower k); [done|].
  by intros [? ?].
Qed.

(** [CreateEntry] never takes an entry out, nor puts another in its place. *)
Lemma CreateEntry_keeps set entry k x :
  entries set !! k = Some x -> entries (CreateEntry set entry).2 !! k = Some x.
Proof.
  rewrite !case_insensitive_find, CreateEntry_elements.
  by destruct (elements_of (entries set) !! Lower k).
Qed.

Lemma CreateEntry_keyed set entry : keyed set -> keyed (CreateEntry set entry).2.
Proof.
  intros Hk l k x. rewrite CreateEntry_elements.
  destruct (elements_of (entries set) !! l) as [y|] eqn:E.
  - intros [= ->]. destruct (Hk _ _ _ E) as (Hl & Hn & Hm).
    split; [done|]. split; [done|]. by apply CreateEntry_keeps_record.
  - case_decide as Hd; [|done]. intros [= <- <-]. destruct Hd as [<- Hne].
    split; [done|]. split; [done|].
    rewrite case_insensitive_find, CreateEntry_entry_map.
    destruct (elements_of (entry_map set) !! Lower (name entry)); [done|].
    by rewrite decide_True.
Qed.



Lemma create_all_keeps found : forall set k x,
  entries set !! k = Some x -> entries (create_all set found).2 !! k = Some x.
Proof.
  induction found as [|entry found IH]; intros set k x H; [done|].
  cbn [create_all]. pose proof (CreateEntry_keeps set entry k x H) as H1.
  destruct (CreateEntry set entry) as [[r|e] set1]; cbn in *; [|done].
  by apply IH.
Qed.

Lemma create_all_keyed found : forall set,
  keyed set -> keyed (create_all set found).2.
Proof.
  induction found as [|entry found IH]; intros set H; [done|].
  cbn [create_all]. pose proof (CreateEntry_keyed set entry H) as H1.
  destruct (CreateEntry set entry) as [[r|e] set1]; cbn in *; [|done].
  by apply IH.
Qed.



(** The discovery run, and so [GetEntry] and [Scan], on top of that. *)
Lemma load_if_needed_as_create_all context set :
  exists set0,
    entries set0 = entries set /\ entry_map set0 = entry_map set /\
    ((load_if_needed context set).2 = set
     \/ (load_if_needed context set).2 = (create_all set0 (discovered context)).2).
Proof.
  unfold load_if_needed. destruct (is_loaded set); cbn [negb].
  { exists set. auto. }
  unfold LoadEntries.
  match goal with |- context [create_all ?s ?l] => exists s end.
  repeat split; try done. right.
  destruct (create_all _ _) as [[r|e] s1]; [|done].
  by destruct (discovery_error context).
Qed.

Lemma load_if_needed_keeps context set k x :
  entries set !! k = Some x ->
  entries (load_if_needed context set).2 !! k = Some x.
Proof.
  intros H. destruct (load_if_needed_as_create_all context set)
    as (set0 & He & _ & [-> | ->]); [done|].
  apply create_all_keeps. by rewrite He.
Qed.

Lemma load_if_needed_keyed context set :
  keyed set -> keyed (load_if_needed context set).2.
Proof.
  intros H. destruct (load_if_needed_as_create_all context set)
    as (set0 & He & Hm & [-> | ->]); [done|].
  apply create_all_keyed. unfold keyed. by rewrite He, Hm.
Qed.



Lemma call_keyed set c : keyed set -> keyed (call set c).
Proof.
  intros H. destruct c; cbn [call].
  - by apply CreateEntry_keyed.
  - unfold DropEntry. destruct (Query context (drop_query info)); [done|].
    intros l k x; cbn. intros Hx.
    apply lookup_delete_Some in Hx as [_ Hx]. by apply (H _ _ _ Hx).
  - intros l k x H'. unfold ClearEntries in H'; cbn in H'.
    by rewrite lookup_empty in H'.
  - rewrite GetEntry_state. by apply load_if_needed_keyed.
  - rewrite Scan_state. by apply load_if_needed_keyed.
Qed.



Lemma new_set_keyed : keyed new_set.
Proof.
  intros l k x H. unfold new_set in H; cbn in H.
  by rewrite lookup_empty in H.
Qed.



Lemma calls_keyed cs : forall set, keyed set -> keyed (calls set cs).
Proof.
  induction cs as [|c cs IH]; intros set H; [done|].
  apply IH. by apply call_keyed.
Qed.



(** On a set that keeps the invariant, an element of [entries] is the entry
    of its own name, and the map finds it under that name. *)
Lemma keyed_stored set k entry :
  keyed set -> (k, entry) ∈ case_insensitive_elements (entries set) ->
  name entry = k /\ stored set entry.
Proof.
  intros Hk [l H]%elem_of_case_insensitive_elements.
  destruct (Hk _ _ _ H) as (-> & Hn & _). split; [done|].
  unfold stored. by rewrite case_insensitive_find, Hn, H.
Qed.

Lemma stored_element set entry :
  keyed set -> stored set entry ->
  (name entry, entry) ∈ case_insensitive_elements (entries set).
Proof.
  intros Hk Hs. unfold stored in Hs. rewrite case_insensitive_find in Hs.
  destruct (elements_of (entries set) !! Lower (name entry)) as [[k x]|] eqn:E;
    [|done].
  cbn in Hs. injection Hs as ->. destruct (Hk _ _ _ E) as (_ & <- & _).
  apply elem_of_case_insensitive_elements. by eexists.
Qed.




End CatalogSetInvariants.

(** C10: on a set that is not loaded, [GetEntry] and [Scan] run the
    discovery on the set with the flag already set; when that run raises,
    the call raises too and leaves the set loaded, with the entries it had
    and those the run had created; after that no call runs the discovery
    again, whatever the calls are, as long as none of them is
    [ClearEntries]; [ClearEntries] resets the flag, and the next [GetEntry]
    or [Scan] runs the discovery. *)
Theorem failed_discovery_leaves_the_set_loaded
    (context : ClientContext) (set : MySQLCatalogSet) (e : Exception)
    (name : string) :
  is_loaded set = false ->
  (LoadEntries context (mark_loaded set)).1 = Throw e ->
  let after_get := GetEntry context set name in
  let after_scan := Scan context set (fun _ (u : unit) => u) tt in
  after_get = (Throw e, (LoadEntries context (mark_loaded set)).2) /\
  after_scan = (Throw e, (LoadEntries context (mark_loaded set)).2) /\
  is_loaded after_get.2 = true /\
  load_calls after_get.2 = S (load_calls set) /\
  (forall k entry, entries set !! k = Some entry ->
                   entries after_get.2 !! k = Some entry) /\
  (forall cs,
     forallb (fun c => negb (is_clear c)) cs = true ->
     is_loaded (calls after_get.2 cs) = true /\
     load_calls (calls after_get.2 cs) = load_calls after_get.2) /\
  (forall cs context' name',
     let cleared := ClearEntries (calls after_get.2 cs) in
     is_loaded cleared = false /\
     load_calls (GetEntry context' cleared name').2 = S (load_calls cleared) /\
     load_calls (Scan context' cleared (fun _ (u : unit) => u) tt).2
       = S (load_calls cleared)).
Proof.
  intros Hl He after_get after_scan.
  assert (after_get = (Throw e, (LoadEntries context (mark_loaded set)).2))
    as Hget.
  { subst after_get. unfold GetEntry. rewrite load_if_needed_unloaded by done.
    destruct (LoadEntries context (mark_loaded set)) as [[u|e'] s]; cbn in *;
      congruence. }
  assert (after_scan = (Throw e, (LoadEntries context (mark_loaded set)).2))
    as Hscan.
  { subst after_scan. unfold Scan. rewrite load_if_needed_unloaded by done.
    destruct (LoadEntries context (mark_loaded set)) as [[u|e'] s]; cbn in *;
      congruence. }
  destruct (LoadEntries_flags context (mark_loaded set)) as [Hfl Hfc].
  split; [done|]. split; [done|].
  assert (after_get.2 = (load_if_needed context set).2) as Hstate
    by apply GetEntry_state.
  split; [rewrite Hstate; apply load_if_needed_flags|].
  split; [by rewrite Hget|].
  split; [intros k entry Hk; rewrite Hstate; by apply load_if_needed_keeps|].
  split.
  - intros cs Hcs. apply calls_loaded; [|done].
    rewrite Hstate. apply load_if_needed_flags.
  - intros cs context' name' cleared.
    assert (is_loaded cleared = false) as Hc by done.
    split; [done|].
    rewrite GetEntry_state, Scan_state, load_if_needed_unloaded by done.
    by destruct (LoadEntries_flags context' (mark_loaded cleared)) as [_ ->].
Qed.

Lemma failed_discovery_leaves_the_set_loaded_witness :
  let first := {| name := "a"; type := TABLE_ENTRY; oid := 1 |} in
  let context :=
    {| discovered := [first];
       discovery_error := Some (IOException "lost connection");
       Query := fun _ => None |} in
  let after := GetEntry context new_set "a" in
  after.1 = Throw (IOException "lost connection") /\
  is_loaded after.2 = true /\
  load_calls after.2 = 1%nat /\
  load_calls (calls after.2 [CallGetEntry context "a"; CallScan context]) = 1%nat.
Proof.
  intros first context after.
  destruct (failed_discovery_leaves_the_set_loaded context new_set
              (IOException "lost connection") "a" eq_refl eq_refl)
    as (Hget & _ & Hl & Hc & _ & Hcalls & _).
  fold after in Hget, Hl, Hc, Hcalls.
  split; [by rewrite Hget|]. split; [exact Hl|]. split; [exact Hc|].
  destruct (Hcalls [CallGetEntry context "a"; CallScan context] eq_refl)
    as [_ ->]. exact Hc.
Defined.



(** The entry of the specification's example: after "foo" alone was
    created, "Foo" and "foo" give the same entry. *)
Example GetEntry_Foo_is_foo :
  let foo := {| name := "foo"; type := TABLE_ENTRY; oid := 1 |} in
  let set := calls new_set [CallCreateEntry foo] in
  (GetEntry quiet set "Foo").1 = Ok (Some foo) /\
  (GetEntry quiet set "Foo").1 = (GetEntry quiet set "foo").1.
Proof. split; reflexivity. Qed.

(** A name that differs in case only from a stored name is not stored beside
    it, and [DropEntry] takes the entry out in any spelling of its name. *)
Example case_variants_are_one_name :
  let foo := {| name := "foo"; type := TABLE_ENTRY; oid := 1 |} in
  let Foo := {| name := "Foo"; type := TABLE_ENTRY; oid := 2 |} in
  let drop_FOO :=
    {| info_type := TABLE_ENTRY; info_name := "FOO";
       info_if_not_found := THROW_EXCEPTION; info_cascade := false |} in
  let set := calls new_set [CallCreateEntry foo; CallCreateEntry Foo] in
  (CreateEntry (calls new_set [CallCreateEntry foo]) Foo).1 = Ok dangling /\
  (GetEntry quiet set "Foo").1 = Ok (Some foo) /\
  (GetEntry quiet (calls set [CallDropEntry quiet drop_FOO]) "foo").1 = Ok None.
Proof. repeat split; reflexivity. Qed.

(** ** The filter translator *)

Import MySQLFilterPushdown.

Section FilterPushdown.

(** Induction over a filter and the children of its conjunctions. *)
Lemma PredicateNode_induction (P : PredicateNode -> Prop) :
  (forall t c, P (Comparison t c)) ->
  (forall children, Forall P children -> P (Conjunction children)) ->
  (forall values, P (InConstants values)) ->
  P Unsupported ->
  forall filter, P filter.
Proof.
  intros Hc Hj Hi Hu.
  fix IH 1. intros [t c|children|values|].
  - apply Hc.
  - apply Hj. induction children as [|child children IHc]; constructor.
    + apply IH.
    + apply IHc.
  - apply Hi.
  - apply Hu.
Qed.

Lemma join_entries_nonempty (filter_entries : list string) (op : string) :
  nonempty (join_entries filter_entries op)
  = existsb nonempty filter_entries.
Proof.
  unfold join_entries.
  induction filter_entries as [|s l IH]; [done|].
  cbn [List.filter existsb]. destruct (nonempty s); [done|].
  by rewrite <- IH.
Qed.

(** A filter translates to something exactly when it is [expressible]. *)
Lemma TransformFilter_nonempty (column_name : string) (filter : PredicateNode) :
  nonempty (TransformFilter column_name filter) = expressible filter.
Proof.
  induction filter as [t c|children IH|values|] using PredicateNode_induction;
    try done.
  cbn [TransformFilter expressible]. rewrite join_entries_nonempty.
  induction IH as [|child children Hchild _ IHl]; [done|].
  cbn [List.map existsb]. by rewrite Hchild, IHl.
Qed.

Lemma join_entries_parenthesized (filter_entries : list string) (op : string) :
  nonempty (join_entries filter_entries op) = true ->
  parenthesized (join_entries filter_entries op).
Proof.
  unfold join_entries. destruct (List.filter nonempty filter_entries); [done|].
  intros _. by eexists.
Qed.

Lemma TransformFilter_parenthesized (column_name : string)
    (filter : PredicateNode) :
  expressible filter = true ->
  parenthesized (TransformFilter column_name filter).
Proof.
  destruct filter as [t c|children|values|]; intros He.
  - exists (column_name +:+ " " +:+ TransformComparision t +:+ " "
            +:+ MySQLUtils.WriteLiteral c).
    cbn [TransformFilter]. by rewrite !append_assoc.
  - apply join_entries_parenthesized.
    change (nonempty (TransformFilter column_name (Conjunction children)) = true).
    by rewrite TransformFilter_nonempty.
  - exists (column_name +:+ " IN ("
            +:+ Join (List.map MySQLUtils.WriteLiteral values) ", " +:+ ")").
    cbn [TransformFilter]. by rewrite !append_assoc.
  - done.
Qed.

(** The translation does not see the unsupported nodes. *)
Lemma TransformFilter_prune (column_name : string) (filter : PredicateNode) :
  TransformFilter column_name filter
  = from_option (TransformFilter column_name) EmptyString (prune filter).
Proof.
  induction filter as [t c|children IH|values|] using PredicateNode_induction;
    try done.
  cbn [TransformFilter prune].
  assert (List.filter nonempty (List.map (TransformFilter column_name) children)
          = List.filter nonempty
              (List.map (TransformFilter column_name) (omap prune children)))
    as Hsame.
  { induction IH as [|child children Hchild _ IHl]; [done|].
    cbn [List.map List.filter omap list_omap]. rewrite Hchild.
    fold (omap prune children).
    destruct (prune child) as [g|]; cbn [from_option].
    - cbn [List.map List.filter]. by rewrite IHl.
    - cbn [nonempty]. exact IHl. }
  unfold join_entries at 1. rewrite Hsame.
  destruct (omap prune children) as [|g kept] eqn:E; [done|].
  cbn [from_option TransformFilter]. by unfold join_entries.
Qed.

Lemma transform_entry_nonempty column_ids names entry :
  nonempty (transform_entry column_ids names entry)
  = match column_name_of column_ids names entry.1 with
    | Some _ => expressible entry.2
    | None => false
    end.
Proof.
  unfold transform_entry.
  destruct (column_name_of column_ids names entry.1); [|done].
  apply TransformFilter_nonempty.
Qed.

(** The terms of the fragment are those of the supported filters. *)
Lemma filter_terms column_ids names filters :
  List.filter nonempty (List.map (transform_entry column_ids names) filters)
  = List.map (fun c => TransformFilter (MySQLUtils.WriteIdentifier c.1) c.2)
             (supported column_ids names filters).
Proof.
  unfold supported, resolved.
  induction filters as [|[index filter] filters IH]; [done|].
  cbn [List.map List.filter omap list_omap].
  rewrite transform_entry_nonempty. unfold transform_entry. cbn [fst snd].
  destruct (column_name_of column_ids names index) as [n|]; cbn; [|exact IH].
  destruct (expressible filter); [|exact IH].
  cbn [List.map fst snd]. f_equal. exact IH.
Qed.

Lemma transform_entry_prune column_ids names index filter :
  transform_entry column_ids names (index, filter)
  = from_option (fun g => transform_entry column_ids names (index, g))
                EmptyString (prune filter).
Proof.
  unfold transform_entry. cbn [fst snd].
  destruct (column_name_of column_ids names index); [|by destruct (prune filter)].
  rewrite TransformFilter_prune. by destruct (prune filter).
Qed.

Lemma prune_set_terms column_ids names filters :
  List.filter nonempty
    (List.map (transform_entry column_ids names) (prune_set filters))
  = List.filter nonempty (List.map (transform_entry column_ids names) filters).
Proof.
  induction filters as [|[index filter] filters IH]; [done|].
  unfold prune_set in *. cbn [omap list_omap List.map List.filter].
  rewrite (transform_entry_prune _ _ index filter).
  destruct (prune filter) as [g|];
    cbn [fmap option_fmap option_map from_option List.map List.filter nonempty].
  - by rewrite IH.
  - exact IH.
Qed.

(** The fragment of a set of one filter is the term of the filter. *)
Lemma TransformFilters_one column_ids names entry :
  TransformFilters column_ids (Some [entry]) names
  = transform_entry column_ids names entry.
Proof.
  unfold TransformFilters. cbn [List.map List.filter].
  by destruct (transform_entry column_ids names entry).
Qed.

End FilterPushdown.

(** C8: for every column-id list, name list and filter set the fragment is
    the terms of the supported filters, joined by AND, one term for each: a
    filter is supported when its column resolves and it is a comparison, a
    set membership, or a conjunction that has such a filter under it.  Each
    term is in parentheses.  The term of a comparison and of a set
    membership has the column name through [WriteIdentifier] and the
    constants through [WriteLiteral]; the term of a conjunction joins the
    terms of its children by AND.  An unsupported node emits nothing,
    wherever it stands, and the fragment is the one of the filter set with
    the unsupported nodes taken out; without a filter set the fragment is
    empty. *)
Theorem TransformFilters_fragment
    (column_ids : list nat) (filters : list (nat * PredicateNode))
    (names : list string) :
  let terms :=
    List.map (fun c => TransformFilter (MySQLUtils.WriteIdentifier c.1) c.2)
             (supported column_ids names filters) in
  let fragment_of entry := TransformFilters column_ids (Some [entry]) names in
  TransformFilters column_ids (Some filters) names = Join terms " AND " /\
  Forall parenthesized terms /\
  TransformFilters column_ids (Some (prune_set filters)) names
  = TransformFilters column_ids (Some filters) names /\
  (forall index column_id n,
     column_ids !! index = Some column_id -> names !! column_id = Some n ->
     (forall t c,
        fragment_of (index, Comparison t c)
        = "(" +:+ MySQLUtils.WriteIdentifier n +:+ " "
          +:+ TransformComparision t +:+ " "
          +:+ MySQLUtils.WriteLiteral c +:+ ")") /\
     (forall values,
        fragment_of (index, InConstants values)
        = "(" +:+ MySQLUtils.WriteIdentifier n +:+ " IN ("
          +:+ Join (List.map MySQLUtils.WriteLiteral values) ", " +:+ "))")) /\
  (forall index children,
     fragment_of (index, Conjunction children)
     = join_entries
         (List.map (fun child => fragment_of (index, child)) children) "AND") /\
  (forall index, fragment_of (index, Unsupported) = EmptyString) /\
  TransformFilters column_ids None names = EmptyString.
Proof.
  intros terms fragment_of.
  split; [|split; [|split; [|split; [|split; [|split]]]]].
  - unfold TransformFilters. by rewrite filter_terms.
  - subst terms. apply Forall_forall. intros s Hs.
    apply list_elem_of_In, in_map_iff in Hs as (c & <- & Hc).
    apply filter_In in Hc as [_ Hc].
    by apply TransformFilter_parenthesized.
  - unfold TransformFilters. by rewrite prune_set_terms.
  - intros index column_id n Hid Hn. subst fragment_of.
    split; intros; rewrite TransformFilters_one; unfold transform_entry,
      column_name_of; cbn [fst snd]; by rewrite Hid; cbn; rewrite Hn.
  - intros index children. subst fragment_of. cbn beta.
    rewrite TransformFilters_one.
    rewrite (map_ext _ (fun child => transform_entry column_ids names
                                       (index, child)))
      by (intros child; apply TransformFilters_one).
    unfold transform_entry. cbn [fst snd].
    destruct (column_name_of column_ids names index) as [n|]; [done|].
    unfold join_entries. by induction children.
  - intros index. subst fragment_of. cbn beta. rewrite TransformFilters_one.
    unfold transform_entry. by destruct (column_name_of _ _ _).
  - done.
Qed.

Lemma TransformFilters_fragment_witness :
  let filters :=
    [(0%nat, Comparison COMPARE_EQUAL "1");
     (1%nat, Unsupported);
     (5%nat, Unsupported);
     (0%nat, Conjunction [Unsupported; Comparison COMPARE_LESSTHAN "5"])] in
  TransformFilters [2%nat; 0%nat] (Some filters) ["b"; "x"; "a`c"]
  = "(`a\`c` = '1') AND ((`a\`c` < '5'))".
Proof.
  intros filters.
  exact (proj1 (TransformFilters_fragment [2%nat; 0%nat] filters
                  ["b"; "x"; "a`c"])).
Defined.

(** * Further properties of the code *)

(** ** Quoting: two texts are never quoted alike *)

Section QuotingInjective.

Lemma append_cancel_r (s1 s2 t : string) : s1 +:+ t = s2 +:+ t -> s1 = s2.
Proof.
  revert s2. induction s1 as [|c1 s1 IH]; intros [|c2 s2] H; [done| | |].
  - apply (f_equal String.length) in H.
    rewrite !length_append in H. cbn in H. lia.
  - apply (f_equal String.length) in H.
    rewrite !length_append in H. cbn in H. lia.
  - rewrite !append_cons in H. injection H as -> H. f_equal. by apply IH.
Qed.

(** The escaped text never begins with the bare quote character. *)
Lemma escape_quote_only_head (quote : ascii) (text rest : string) :
  quote <> backslash -> escape_quote_only quote text <> String quote rest.
Proof.
  intros Hq. destruct text as [|c text]; [done|]. cbn.
  destruct (Ascii.eqb_spec c quote) as [->|Hc]; congruence.
Qed.

Lemma escape_quote_only_inj (quote : ascii) :
  quote <> backslash ->
  forall t1 t2,
    escape_quote_only quote t1 = escape_quote_only quote t2 -> t1 = t2.
Proof.
  intros Hq. induction t1 as [|c1 t1 IH]; intros [|c2 t2] H.
  - done.
  - cbn in H. by destruct (Ascii.eqb c2 quote).
  - cbn in H. by destruct (Ascii.eqb c1 quote).
  - cbn in H.
    destruct (Ascii.eqb_spec c1 quote) as [->|H1];
      destruct (Ascii.eqb_spec c2 quote) as [->|H2].
    + injection H as H. f_equal. by apply IH.
    + injection H as <- H. symmetry in H.
      by apply escape_quote_only_head in H.
    + injection H as -> H. by apply escape_quote_only_head in H.
    + injection H as -> H. f_equal. by apply IH.
Qed.

Lemma WriteQuoted_inj (quote : ascii) (s1 s2 : string) :
  quote <> backslash ->
  WriteQuoted s1 quote = WriteQuoted s2 quote -> s1 = s2.
Proof.
  intros Hq. unfold WriteQuoted. rewrite !EscapeQuotes_chars.
  unfold string1 at 1 3. rewrite !append_cons. intros [= H].
  change (EmptyString +:+ ?x) with x in H.
  apply append_cancel_r in H. by apply escape_quote_only_inj in H.
Qed.

End QuotingInjective.

(** X1: [WriteIdentifier] and [WriteLiteral] are one-to-one: two different
    names never get the same quoted identifier, two different values never
    the same quoted literal. *)
Theorem WriteIdentifier_WriteLiteral_one_to_one (s1 s2 : string) :
  (WriteIdentifier s1 = WriteIdentifier s2 <-> s1 = s2) /\
  (WriteLiteral s1 = WriteLiteral s2 <-> s1 = s2).
Proof.
  split; (split; [|by intros ->]); apply WriteQuoted_inj; done.
Qed.

(** ** The DSN: single values and single pairs *)

(** X22: a text without the quote character is quoted by putting it
    between two quote characters, nothing else: backslashes and all other
    characters stay as they are. *)
Theorem WriteQuoted_without_quote_character (text : string) (quote : ascii) :
  Contains text (string1 quote) = false ->
  WriteQuoted text quote = string1 quote +:+ text +:+ string1 quote.
Proof.
  intros H. unfold WriteQuoted.
  by rewrite EscapeQuotes_chars, escape_quote_only_id.
Qed.

Lemma WriteQuoted_without_quote_character_witness :
  WriteQuoted "tale 1" backtick
  = string1 backtick +:+ "tale 1" +:+ string1 backtick.
Proof.
  exact (WriteQuoted_without_quote_character "tale 1" backtick eq_refl).
Defined.

(** X2: a value written between double quotes, with a backslash in front of
    every backslash and double quote in it, is read back as it was, whatever
    characters it has, also behind white space and in front of any rest; so
    every password can be given in a DSN. *)
Theorem quoted_value_is_read_back
    (dsn sp value rest result : string) :
  all_space sp = true ->
  ParseValue dsn (sp +:+ dsn_quote value +:+ rest) result
  = Ok (true, rest, result +:+ value) /\
  parse_dsn ("passwd=" +:+ dsn_quote value)
  = Ok (set_passwd value default_parameters, {["password"]} ∪ ∅).
Proof.
  intros Hsp. split; [by apply ParseValue_quoted|].
  change ("passwd=" +:+ dsn_quote value)
    with ("passwd" +:+ "=" +:+ dsn_quote value).
  rewrite (parse_dsn_one_pair "passwd" (dsn_quote value) value eq_refl);
    [done|].
  intros dsn'. apply ParseValue_quoted_end.
Qed.

Lemma quoted_value_is_read_back_witness :
  ParseValue "x" ("  " +:+ dsn_quote "a b\c=" +:+ " port=1") EmptyString
  = Ok (true, " port=1", "a b\c=") /\
  parse_dsn ("passwd=" +:+ dsn_quote "a b\c=")
  = Ok (set_passwd "a b\c=" default_parameters, {["password"]} ∪ ∅).
Proof.
  exact (quoted_value_is_read_back "x" "  " "a b\c=" " port=1" EmptyString
           eq_refl).
Defined.

(** X3: in a DSN of one pair, the case of the letters of the key does not
    matter: the outcome is what the lower-cased key and the value give,
    whether the value is written unquoted or between double quotes. *)
Theorem key_is_matched_in_lower_case (k text value : string) :
  unquoted k = true -> written_as value text ->
  parse_dsn (k +:+ "=" +:+ text)
  = assign_option (Lower k) value default_parameters ∅ /\
  parse_dsn (k +:+ "=" +:+ text) = parse_dsn (Lower k +:+ "=" +:+ text).
Proof.
  intros Hk Hv.
  assert (forall dsn, ParseValue dsn text EmptyString
                      = Ok (true, EmptyString, value)) as Hpv
    by (intros dsn; by apply written_as_ParseValue).
  rewrite (parse_dsn_one_pair k text value Hk Hpv).
  rewrite (parse_dsn_one_pair (Lower k) text value); [|by rewrite Lower_unquoted|done].
  by rewrite Lower_idemp.
Qed.

Lemma key_is_matched_in_lower_case_witness :
  parse_dsn ("HoSt=" +:+ dsn_quote "db 1")
  = Ok (set_host "db 1" default_parameters, {["host"]} ∪ ∅) /\
  parse_dsn ("HoSt=" +:+ dsn_quote "db 1")
  = parse_dsn ("host=" +:+ dsn_quote "db 1").
Proof.
  exact (key_is_matched_in_lower_case "HoSt" (dsn_quote "db 1") "db 1" eq_refl
           (or_intror eq_refl)).
Defined.

Section UnrecognizedKey.

Lemma assign_all_app (accepted pairs : list WrittenPair) :
  forall r s,
    assign_all (accepted ++ pairs) r s
    = match assign_all accepted r s with
      | Ok (r', s') => assign_all pairs r' s'
      | Throw e => Throw e
      end.
Proof.
  induction accepted as [|p accepted IH]; intros r s; [done|].
  cbn [app assign_all].
  destruct (assign_option (Lower (pair_key p)) (pair_value p) r s)
    as [[r1 s1]|e]; [|done].
  cbn. apply IH.
Qed.

Lemma assign_option_unrecognized key value r s :
  recognized_key key = false ->
  assign_option key value r s
  = Throw (InvalidInputException
      ("Unrecognized configuration parameter " +:+ in_dquotes key +:+
       " - expected options are host, user, passwd, db, port, socket, and workload")).
Proof.
  intros Hr. unfold recognized_key, name_in in Hr. cbn [existsb] in Hr.
  repeat (apply orb_false_elim in Hr as [? Hr]).
  unfold assign_option.
  repeat match goal with
         | H : String.eqb _ _ = false |- _ => rewrite H; clear H
         end.
  done.
Qed.

End UnrecognizedKey.

(** X4: in a DSN whose first pairs are all taken by the loop, the next pair,
    when its key in lower case is none of host, user, passwd, password, db,
    database, port, socket, unix_socket, workload, makes the call raise, in
    every environment and whatever stands behind the pair, with a message
    that names the lower-cased key. *)
Theorem unrecognized_key_raises
    (getenv : Environment) (taken : list WrittenPair) (p : WrittenPair)
    (rest : string) :
  pairs_ok (taken ++ [p]) rest = true ->
  forallb pair_accepted taken = true ->
  recognized_key (Lower (pair_key p)) = false ->
  ParseConnectionParameters getenv (pairs_text (taken ++ [p]) +:+ rest)
  = Throw (InvalidInputException
      ("Unrecognized configuration parameter " +:+
       in_dquotes (Lower (pair_key p)) +:+
       " - expected options are host, user, passwd, db, port, socket, and workload")).
Proof.
  intros Hok Htaken Hr. apply ParseConnectionParameters_dsn_error.
  unfold parse_dsn. rewrite parse_options_pairs by (done || lia).
  rewrite assign_all_app.
  rewrite <- (assign_all_succeeds taken default_parameters ∅) in Htaken.
  destruct (assign_all taken default_parameters ∅) as [[r s]|e]; [|done].
  cbn [assign_all]. by rewrite assign_option_unrecognized.
Qed.

Lemma unrecognized_key_raises_witness :
  let taken :=
    [ {| before_key := EmptyString; key_token := Unquoted "port";
         before_value := EmptyString; value_token := Unquoted "3306" |} ] in
  let p :=
    {| before_key := " "; key_token := Unquoted "Hostname";
       before_value := EmptyString; value_token := Unquoted "h" |} in
  pairs_text (taken ++ [p]) +:+ " port=abc" = "port=3306 Hostname=h port=abc" /\
  ParseConnectionParameters (fun _ => None) "port=3306 Hostname=h port=abc"
  = Throw (InvalidInputException
      ("Unrecognized configuration parameter " +:+ in_dquotes "hostname" +:+
       " - expected options are host, user, passwd, db, port, socket, and workload")).
Proof.
  intros taken p. split; [reflexivity|].
  exact (unrecognized_key_raises (fun _ => None) taken p " port=abc"
           eq_refl eq_refl eq_refl).
Defined.

(** X5: a key that is not followed by an equality sign, and a key whose
    equality sign is followed by nothing, make the parse raise, in every
    environment. *)
Theorem key_without_value_raises (getenv : Environment) (k : string) :
  unquoted k = true ->
  ParseConnectionParameters getenv k = Throw (expected_pairs k) /\
  ParseConnectionParameters getenv (k +:+ "=")
  = Throw (expected_pairs (k +:+ "=")).
Proof.
  intros Hk. split; apply ParseConnectionParameters_dsn_error; unfold parse_dsn.
  - assert (exists n, String.length k = S n) as [n ->]
      by (destruct k; [done|by eexists]).
    cbn [parse_options]. rewrite ParseValue_unquoted_end by done.
    by destruct k.
  - set (dsn := k +:+ "=").
    assert (exists n, String.length dsn = S n) as [n ->].
    { subst dsn. destruct k; [done|]. rewrite append_cons. by eexists. }
    cbn [parse_options].
    assert (ParseValue dsn dsn EmptyString
            = Ok (true, String "="%char EmptyString, k)) as Hkey.
    { subst dsn. by rewrite ParseValue_unquoted. }
    destruct dsn as [|c0 dsn0] eqn:Edsn; [by destruct k|].
    rewrite <- Edsn in *. by rewrite Hkey.
Qed.

Lemma key_without_value_raises_witness :
  ParseConnectionParameters (fun _ => None) "host"
  = Throw (expected_pairs "host") /\
  ParseConnectionParameters (fun _ => None) ("host" +:+ "=")
  = Throw (expected_pairs ("host" +:+ "=")).
Proof. exact (key_without_value_raises (fun _ => None) "host" eq_refl). Defined.

Section WholeDsnTheorems.

Lemma parse_dsn_all_space (dsn : string) :
  all_space dsn = true -> parse_dsn dsn = Ok (default_parameters, ∅).
Proof.
  intros H. unfold parse_dsn. cbn [parse_options].
  destruct dsn as [|c dsn]; [done|].
  unfold ParseValue. by rewrite skip_spaces_only_space.
Qed.

Lemma ParsePort_in_range (value : string) (p : Z) :
  ParsePort value = Ok p -> port_in_range p.
Proof.
  unfold ParsePort, port_in_range, PORT_MIN, PORT_MAX.
  destruct (stoi value) as [v|e]; cbn; [|done].
  destruct (Z.ltb_spec v 0); destruct (Z.ltb_spec 65353 v); cbn; try done.
  intros [= <-]. lia.
Qed.

Lemma assign_option_port key value r0 s0 r s :
  assign_option key value r0 s0 = Ok (r, s) ->
  port_in_range (port r0) -> port_in_range (port r).
Proof.
  unfold assign_option.
  repeat match goal with
         | |- context [if ?b then _ else _] => destruct b
         end; try (intros [= <- <-]; done); try done.
  destruct (ParsePort value) as [p|e] eqn:E; cbn; [|done].
  intros [= <- <-] _. by apply ParsePort_in_range in E.
Qed.

Lemma parse_options_port (fuel : nat) :
  forall dsn rest r0 s0 r s,
    parse_options fuel dsn rest r0 s0 = Some (Ok (r, s)) ->
    port_in_range (port r0) -> port_in_range (port r).
Proof.
  induction fuel as [|fuel IH]; intros dsn rest r0 s0 r s H Hp; [done|].
  cbn [parse_options] in H.
  destruct rest as [|c0 rest0]; [by injection H as <- <-|].
  destruct (ParseValue dsn (String c0 rest0) EmptyString)
    as [[[b rest1] key]|e]; [|done].
  destruct b; [|by injection H as <- <-].
  destruct rest1 as [|c1 rest2]; [done|].
  destruct (Ascii.eqb_spec c1 "="%char) as [->|Hne].
  2:{ destruct c1 as [[] [] [] [] [] [] [] []]; try done. }
  destruct (ParseValue dsn rest2 EmptyString) as [[[b2 rest3] value]|e];
    [|done].
  destruct b2; [|done].
  destruct (assign_option (Lower key) value r0 s0) as [[r1 s1]|e] eqn:Ea;
    [|done].
  apply IH in H; [done|]. by eapply assign_option_port.
Qed.

End WholeDsnTheorems.

(** X6: a DSN that is empty or white space sets nothing: every member with
    an environment variable has the value of the variable, or its default
    when the variable is not there, and the workload is empty. *)
Theorem white_space_dsn_reads_the_environment
    (getenv : Environment) (dsn : string) :
  all_space dsn = true ->
  ParseConnectionParameters getenv dsn
  = (port_val ← match getenv "MYSQL_TCP_PORT" with
                | Some port_number => ParsePort port_number
                | None => Ok 0
                end;
     Ok {| host := env_or_empty getenv "MYSQL_HOST";
           user := env_or_empty getenv "MYSQL_USER";
           passwd := env_or_empty getenv "MYSQL_PWD";
           db := env_or_empty getenv "MYSQL_DATABASE";
           port := port_val;
           unix_socket := env_or_empty getenv "MYSQL_UNIX_PORT";
           workload := EmptyString;
           client_flag := 69664 |}).
Proof.
  intros H.
  by rewrite (ParseConnectionParameters_filled getenv dsn default_parameters ∅
                (parse_dsn_all_space dsn H)).
Qed.

Lemma white_space_dsn_reads_the_environment_witness :
  ParseConnectionParameters
    (fun var => if String.eqb var "MYSQL_USER" then Some "root" else None)
    "   "
  = Ok {| host := EmptyString; user := "root"; passwd := EmptyString;
          db := EmptyString; port := 0; unix_socket := EmptyString;
          workload := EmptyString; client_flag := 69664 |}.
Proof.
  exact (white_space_dsn_reads_the_environment
           (fun var => if String.eqb var "MYSQL_USER" then Some "root" else None)
           "   " eq_refl).
Defined.

(** X7: whatever the DSN and the environment, a record that
    [ParseConnectionParameters] gives back has a port from 0 to 65353, be it
    set by the DSN, read from MYSQL_TCP_PORT or left at its default, and has
    the three default client flags. *)
Theorem parsed_port_is_in_range
    (getenv : Environment) (dsn : string) (r : MySQLConnectionParameters) :
  ParseConnectionParameters getenv dsn = Ok r ->
  0 <= port r <= 65353 /\
  client_flag r
  = Z.lor (Z.lor CLIENT_COMPRESS CLIENT_IGNORE_SIGPIPE) CLIENT_MULTI_STATEMENTS.
Proof.
  intros H.
  destruct (parse_dsn dsn) as [[explicit set_options]|e] eqn:E.
  2:{ by rewrite (ParseConnectionParameters_dsn_error getenv dsn e E) in H. }
  assert (port_in_range (port explicit)) as Hexplicit.
  { pose proof (parse_dsn_fuel dsn) as Hf. rewrite E in Hf.
    apply parse_options_port in Hf; [done|]. by unfold port_in_range. }
  rewrite (ParseConnectionParameters_filled getenv dsn _ _ E) in H.
  unfold filled_port in H.
  destruct (bool_decide ("port" ∈ set_options)); cbn in H.
  - by injection H as <-.
  - destruct (getenv "MYSQL_TCP_PORT") as [v|]; cbn in H.
    + destruct (ParsePort v) as [p|e] eqn:Ep; cbn in H; [|done].
      injection H as <-. split; [|done]. by apply ParsePort_in_range in Ep.
    + by injection H as <-.
Qed.

Lemma parsed_port_is_in_range_witness :
  0 <= 3306 <= 65353 /\
  69664 = Z.lor (Z.lor CLIENT_COMPRESS CLIENT_IGNORE_SIGPIPE)
                CLIENT_MULTI_STATEMENTS.
Proof.
  exact (parsed_port_is_in_range (fun _ => None) "host=h port=3306"
           {| host := "h"; user := EmptyString; passwd := EmptyString;
              db := EmptyString; port := 3306; unix_socket := EmptyString;
              workload := EmptyString; client_flag := 69664 |} eq_refl).
Defined.

(** ** Connect: the calls to the driver *)

(** X8: [Connect] calls the driver at most twice.  When the handle is
    allocated and the DSN parses, the first call is made with the parameters
    of the DSN; a second call, to 127.0.0.1 with the other arguments
    unchanged, is made exactly when the first one fails and the host is empty
    or localhost.  The outcome is a connection exactly when the last call
    made connects; without a handle or with a DSN that does not parse no call
    is made and [Connect] raises. *)
Theorem Connect_calls_the_driver_at_most_twice
    (mysql_init : bool) (mysql_real_connect : ConnectCall -> bool)
    (mysql_error : string) (getenv : Environment) (dsn : string) :
  let made :=
    (Connect mysql_init mysql_real_connect mysql_error getenv dsn).1 in
  let outcome :=
    (Connect mysql_init mysql_real_connect mysql_error getenv dsn).2 in
  (length made <= 2)%nat /\
  (outcome = Ok tt <->
   exists c, last made = Some c /\ mysql_real_connect c = true) /\
  (forall config,
     mysql_init = true -> ParseConnectionParameters getenv dsn = Ok config ->
     exists more,
       made = first_call config :: more /\
       (more = [] \/ more = [retry_call config]) /\
       (more <> [] <->
        mysql_real_connect (first_call config) = false /\
        (host config = EmptyString \/ host config = "localhost"))) /\
  (mysql_init = false \/ succeeds (ParseConnectionParameters getenv dsn) = false ->
   made = [] /\ succeeds outcome = false).
Proof.
  intros made outcome. subst made outcome. unfold Connect.
  destruct mysql_init; cbn [negb].
  2:{ cbn. split; [lia|]. split; [|split; [done|done]].
      split; [done|]. by intros (c & [=] & _). }
  destruct (ParseConnectionParameters getenv dsn) as [config|e].
  2:{ cbn. split; [lia|]. split; [|split; [done|done]].
      split; [done|]. by intros (c & [=] & _). }
  assert ((String.eqb (host config) EmptyString
           || String.eqb (host config) "localhost")%bool = true
          <-> host config = EmptyString \/ host config = "localhost") as Hlocal.
  { rewrite orb_true_iff, !String.eqb_eq. done. }
  destruct (mysql_real_connect (first_call config)) eqn:E1;
    [|destruct (String.eqb (host config) EmptyString
                || String.eqb (host config) "localhost")%bool eqn:El;
      [destruct (mysql_real_connect (retry_call config)) eqn:E2|]];
    cbn [fst snd length last]; (split; [lia|]);
    (split; [split; [intros H; try discriminate H; by eexists
                    |intros (c & [= <-] & Hc); congruence]|]);
    (split; [|by intros [H|H]; discriminate H]);
    intros config' _ [= <-].
  - exists []. split; [done|]. split; [by left|]. split; [done|].
    intros [H _]. congruence.
  - exists [retry_call config]. split; [done|]. split; [by right|].
    split; [|done]. intros _. split; [done|]. by apply Hlocal.
  - exists [retry_call config]. split; [done|]. split; [by right|].
    split; [|done]. intros _. split; [done|]. by apply Hlocal.
  - exists []. split; [done|]. split; [by left|]. split; [done|].
    intros [_ Hh]. apply Hlocal in Hh. congruence.
Qed.

(** ** Type mapping *)

(** X9: what [ToMySQLType] gives back is of a kind that it hands back
    unchanged: translating the result again changes nothing, and the result
    is never a list, struct, map or union. *)
Theorem ToMySQLType_result_is_stable (input output : LogicalType) :
  ToMySQLType input = Ok output ->
  passes_unchanged (MySQLUtils.id output) = true /\
  ToMySQLType output = Ok output.
Proof.
  unfold ToMySQLType.
  destruct (MySQLUtils.id input) eqn:E; intros [= <-]; rewrite ?E; done.
Qed.

Lemma ToMySQLType_result_is_stable_witness :
  passes_unchanged (MySQLUtils.id (Plain TIMESTAMP)) = true /\
  ToMySQLType (Plain TIMESTAMP) = Ok (Plain TIMESTAMP).
Proof.
  exact (ToMySQLType_result_is_stable (Plain TIMESTAMP_MS) (Plain TIMESTAMP)
           eq_refl).
Defined.

(** X10: every type that [TypeToLogicalType] reads from a MySQL column is a
    type that [ToMySQLType] accepts and hands back unchanged. *)
Theorem TypeToLogicalType_is_accepted_by_ToMySQLType
    (context : MySQLUtils.ClientContext) (type_info : MySQLTypeData) :
  ToMySQLType (TypeToLogicalType context type_info)
  = Ok (TypeToLogicalType context type_info).
Proof.
  unfold TypeToLogicalType.
  repeat match goal with
         | |- context [if ?b then _ else _] => destruct b
         | |- context [match context ?k with _ => _ end] =>
             destruct (context k)
         end; done.
Qed.

(** X11: the session settings can do one thing to the result of
    [TypeToLogicalType]: turn it into boolean, and that for the column types
    tinyint(1) and bit(1) alone. *)
Theorem settings_only_turn_into_boolean
    (context : MySQLUtils.ClientContext) (type_info : MySQLTypeData) :
  TypeToLogicalType context type_info
  = TypeToLogicalType (fun _ => None) type_info \/
  (TypeToLogicalType context type_info = Plain BOOLEAN /\
   (column_type type_info = "tinyint(1)"
    /\ context "mysql_tinyint1_as_boolean" = Some true
    \/ column_type type_info = "bit(1)"
       /\ context "mysql_bit1_as_boolean" = Some true)).
Proof.
  unfold TypeToLogicalType.
  destruct (String.eqb (type_name type_info) "tinyint").
  { destruct (String.eqb_spec (column_type type_info) "tinyint(1)");
      [|by left].
    destruct (context "mysql_tinyint1_as_boolean") as [[]|]; auto. }
  repeat match goal with
         | |- context [if String.eqb (type_name type_info) ?n then _ else _] =>
             destruct (String.eqb (type_name type_info) n); [by left|]
         | |- context [if (_ || _)%bool then _ else _] =>
             destruct (_ || _)%bool; [by left|]
         end.
  destruct (String.eqb (type_name type_info) "bit"); [|by left].
  destruct (String.eqb_spec (column_type type_info) "bit(1)"); [|by left].
  destruct (context "mysql_bit1_as_boolean") as [[]|]; auto.
Qed.

(** X12: a decimal column keeps its precision and scale when the precision
    is from 1 to 38, and becomes a double for any other precision, zero and
    negative ones included. *)
Theorem TypeToLogicalType_decimal
    (context : MySQLUtils.ClientContext) (type_info : MySQLTypeData) :
  type_name type_info = "decimal" ->
  (1 <= precision type_info <= 38 ->
   TypeToLogicalType context type_info
   = DecimalType (precision type_info) (scale type_info)) /\
  (precision type_info < 1 \/ 38 < precision type_info ->
   TypeToLogicalType context type_info = Plain DOUBLE).
Proof.
  intros Hn. unfold TypeToLogicalType. rewrite Hn.
  cbn [String.eqb Ascii.eqb Bool.eqb orb andb].
  destruct (Z.ltb_spec 0 (precision type_info));
    destruct (Z.leb_spec (precision type_info) 38); cbn [andb];
    split; intros; try done; lia.
Qed.

Lemma TypeToLogicalType_decimal_witness :
  TypeToLogicalType (fun _ => None)
    {| type_name := "decimal"; column_type := "decimal(50,2)";
       precision := 50; scale := 2 |} = Plain DOUBLE.
Proof.
  apply (TypeToLogicalType_decimal (fun _ => None)
           {| type_name := "decimal"; column_type := "decimal(50,2)";
              precision := 50; scale := 2 |} eq_refl).
  right. reflexivity.
Defined.

(** ** Fields of a result set *)

Section FieldTheorems.

Lemma Contains_append_r (s t needle : string) :
  Contains t needle = true -> Contains (s +:+ t) needle = true.
Proof.
  intros H. induction s as [|c s IH]; [done|]. rewrite append_cons.
  cbn [Contains]. by destruct (String.prefix needle _).
Qed.

Lemma prefix_lacks (c : ascii) (needle s : string) :
  lacks c needle = false -> lacks c s = true ->
  String.prefix needle s = false.
Proof.
  revert s. induction needle as [|x needle IH]; intros s Hn Hs; [done|].
  destruct s as [|y s]; [done|]. cbn in *.
  destruct (ascii_dec x y) as [->|]; [|done].
  apply andb_prop in Hs as [Hy Hs]. rewrite Hy in Hn. by apply IH.
Qed.

Lemma Contains_lacks (c : ascii) (needle s : string) :
  lacks c needle = false -> lacks c s = true -> Contains s needle = false.
Proof.
  intros Hn. induction s as [|y s IH]; intros Hs.
  - cbn [Contains]. by rewrite (prefix_lacks c needle EmptyString).
  - cbn [Contains]. rewrite (prefix_lacks c needle (String y s)) by done.
    cbn in Hs. apply andb_prop in Hs as [_ Hs]. by apply IH.
Qed.

Lemma lacks_append (c : ascii) (s t : string) :
  lacks c (s +:+ t) = (lacks c s && lacks c t)%bool.
Proof.
  induction s as [|y s IH]; [done|]. rewrite append_cons. cbn.
  by rewrite IH, andb_assoc.
Qed.

Lemma string_of_uint_lacks (c : ascii) (d : Decimal.uint) :
  lacks c "0123456789" = true -> lacks c (NilEmpty.string_of_uint d) = true.
Proof.
  intros H. cbn in H.
  repeat (apply andb_prop in H as [? H]).
  induction d; cbn; rewrite ?IHd, ?andb_true_r; done.
Qed.

Lemma show_Z_lacks (c : ascii) (z : Z) :
  lacks c "-0123456789" = true -> lacks c (show_Z z) = true.
Proof.
  intros H. cbn [lacks] in H. apply andb_prop in H as [Hm H].
  pose proof (string_of_uint_lacks c) as Hd. specialize (fun d => Hd d H).
  assert (forall d, lacks c (NilZero.string_of_uint d) = true) as Hu.
  { intros d. unfold NilZero.string_of_uint. destruct d; try apply Hd.
    cbn in *. by repeat (apply andb_prop in H as [-> H]). }
  unfold show_Z, NilZero.string_of_int.
  destruct (Z.to_int z); [done|]. cbn [lacks]. by rewrite Hm, Hu.
Qed.

Lemma show_Z_inj (a b : Z) : show_Z a = show_Z b -> a = b.
Proof.
  assert (forall z, Z.to_int z <> Decimal.Pos Decimal.Nil /\
                    Z.to_int z <> Decimal.Neg Decimal.Nil) as Hnn.
  { intros [|p|p]; cbn; split; try done; intros [= H];
      by apply DecimalPos.Unsigned.to_uint_nonnil in H. }
  unfold show_Z. intros H. apply (f_equal NilZero.int_of_string) in H.
  rewrite !NilZero.isi in H by apply Hnn.
  injection H as H. by apply DecimalZ.to_int_inj.
Qed.

(** The column type put together for an integer field: whether it says
    unsigned, and whether it is tinyint(1). *)
Lemma field_column_type_unsigned (field : MYSQL_FIELD) signed unsigned :
  integer_kinds (field_type field) = Some (signed, unsigned) ->
  Contains (field_column_type field) "unsigned" = unsigned_number field.
Proof.
  intros Hk. unfold field_column_type, field_type_data, unsigned_number.
  destruct (has_flag (flags field) UNSIGNED_FLAG
            && has_flag (flags field) NUM_FLAG)%bool.
  { by apply Contains_append_r. }
  assert (forall c, lacks c "-0123456789()" = true ->
            lacks c ("(" +:+ show_Z (max_length field) +:+ ")") = true)
    as Hparen.
  { intros c Hc. rewrite !lacks_append, show_Z_lacks.
    - cbn in *. repeat (apply andb_prop in Hc as [? Hc]).
      by repeat (apply andb_true_intro; split).
    - cbn in *. repeat (apply andb_prop in Hc as [? Hc]).
      by repeat (apply andb_true_intro; split). }
  assert (forall c tn, lacks c "-0123456789()" = true -> lacks c tn = true ->
            lacks c (if negb (max_length field =? 0)
                     then tn +:+ "(" +:+ show_Z (max_length field) +:+ ")"
                     else tn) = true) as Hall.
  { intros c tn Hc Htn. destruct (negb _); [|done].
    by rewrite lacks_append, Htn, Hparen. }
  destruct (field_type field); try done; cbn [fst].
  - apply (Contains_lacks "u"%char); [done|]. by apply Hall.
  - apply (Contains_lacks "u"%char); [done|]. by apply Hall.
  - apply (Contains_lacks "u"%char); [done|]. by apply Hall.
  - apply (Contains_lacks "u"%char); [done|]. by apply Hall.
  - apply (Contains_lacks "g"%char); [done|]. by apply Hall.
Qed.

Lemma field_column_type_tinyint1 (field : MYSQL_FIELD) :
  field_type field = MYSQL_TYPE_TINY ->
  String.eqb (field_column_type field) "tinyint(1)"
  = (negb (unsigned_number field) && (max_length field =? 1))%bool.
Proof.
  intros Ht.
  destruct (unsigned_number field) eqn:Eu; cbn [negb andb].
  - apply String.eqb_neq. intros Heq.
    pose proof (field_column_type_unsigned field TINYINT UTINYINT) as H.
    rewrite Ht, Heq, Eu in H. by specialize (H eq_refl).
  - unfold field_column_type, field_type_data.
    unfold unsigned_number in Eu. rewrite Eu, Ht. cbn [fst].
    destruct (Z.eqb_spec (max_length field) 0) as [E0|E0]; cbn [negb].
    { rewrite E0. done. }
    destruct (Z.eqb_spec (max_length field) 1) as [E1|E1].
    { rewrite E1. done. }
    apply String.eqb_neq. intros Heq.
    change "tinyint(1)" with ("tinyint" +:+ "(" +:+ "1" +:+ ")") in Heq.
    apply String.app_inj, String.app_inj, append_cancel_r in Heq.
    by apply (show_Z_inj _ 1) in Heq.
Qed.

End FieldTheorems.

(** X13: an integer field is read as the unsigned kind of its width exactly
    when both the unsigned flag and the numeric flag are set; a one-byte
    integer that is not such an unsigned number is read as boolean when its
    maximal length is 1 and the setting mysql_tinyint1_as_boolean is on, so
    that the setting never makes a boolean of an unsigned one-byte
    integer. *)
Theorem FieldToLogicalType_integer
    (context : MySQLUtils.ClientContext) (field : MYSQL_FIELD)
    (signed unsigned : LogicalTypeId) :
  integer_kinds (field_type field) = Some (signed, unsigned) ->
  FieldToLogicalType context field
  = if unsigned_number field then Plain unsigned
    else if (is_tiny (field_type field) && (max_length field =? 1)
             && bool_decide (context "mysql_tinyint1_as_boolean" = Some true))%bool
         then Plain BOOLEAN
         else Plain signed.
Proof.
  intros Hk.
  pose proof (field_column_type_unsigned field signed unsigned Hk) as Hu.
  unfold FieldToLogicalType, TypeToLogicalType.
  destruct (field_type field) eqn:Et; try done;
    injection Hk as <- <-; unfold field_type_data; rewrite Et;
    cbn [type_name column_type String.eqb Ascii.eqb Bool.eqb orb andb
         is_tiny];
    rewrite Hu; try by destruct (unsigned_number field).
  rewrite (field_column_type_tinyint1 field Et).
  destruct (unsigned_number field); cbn [negb andb]; [done|].
  destruct (max_length field =? 1); [|done].
  by destruct (context "mysql_tinyint1_as_boolean") as [[]|].
Qed.

Lemma FieldToLogicalType_integer_witness :
  FieldToLogicalType (fun _ => Some true)
    {| field_type := MYSQL_TYPE_TINY; max_length := 1; decimals := 0;
       flags := Z.lor UNSIGNED_FLAG NUM_FLAG |}
  = Plain UTINYINT.
Proof.
  exact (FieldToLogicalType_integer (fun _ => Some true)
           {| field_type := MYSQL_TYPE_TINY; max_length := 1; decimals := 0;
              flags := Z.lor UNSIGNED_FLAG NUM_FLAG |}
           TINYINT UTINYINT eq_refl).
Defined.

(** X14: a decimal field has the precision of its maximal length less 2, for
    the sign and the point: with a maximal length from 3 to 40 it is read as
    the decimal of that precision and of the scale of the field, with any
    other maximal length as a double. *)
Theorem FieldToLogicalType_decimal
    (context : MySQLUtils.ClientContext) (field : MYSQL_FIELD) :
  field_type field = MYSQL_TYPE_DECIMAL \/
  field_type field = MYSQL_TYPE_NEWDECIMAL ->
  FieldToLogicalType context field
  = if ((3 <=? max_length field) && (max_length field <=? 40))%bool
    then DecimalType (max_length field - 2) (decimals field)
    else Plain DOUBLE.
Proof.
  intros Ht. unfold FieldToLogicalType, TypeToLogicalType, field_type_data.
  destruct Ht as [-> | ->];
    cbn [type_name column_type precision scale String.eqb Ascii.eqb Bool.eqb
         orb andb];
    destruct (Z.ltb_spec 0 (max_length field - 2));
    destruct (Z.leb_spec (max_length field - 2) 38);
    destruct (Z.leb_spec 3 (max_length field));
    destruct (Z.leb_spec (max_length field) 40); cbn [andb]; try done; lia.
Qed.

Lemma FieldToLogicalType_decimal_witness :
  FieldToLogicalType (fun _ => None)
    {| field_type := MYSQL_TYPE_NEWDECIMAL; max_length := 12; decimals := 2;
       flags := NUM_FLAG |}
  = DecimalType 10 2.
Proof.
  exact (FieldToLogicalType_decimal (fun _ => None)
           {| field_type := MYSQL_TYPE_NEWDECIMAL; max_length := 12;
              decimals := 2; flags := NUM_FLAG |} (or_intror eq_refl)).
Defined.

(** X15: a blob, string or var-string field is read as a blob when its
    binary flag is set and as text when it is not, whatever its length and
    its other flags. *)
Theorem FieldToLogicalType_string
    (context : MySQLUtils.ClientContext) (field : MYSQL_FIELD) :
  In (field_type field)
     [MYSQL_TYPE_BLOB; MYSQL_TYPE_STRING; MYSQL_TYPE_VAR_STRING] ->
  FieldToLogicalType context field
  = if has_flag (flags field) BINARY_FLAG then Plain BLOB else Plain VARCHAR.
Proof.
  intros Ht. unfold FieldToLogicalType, TypeToLogicalType, field_type_data.
  cbn [In] in Ht. destruct Ht as [<- | [<- | [<- | []]]];
    by destruct (has_flag (flags field) BINARY_FLAG).
Qed.

Lemma FieldToLogicalType_string_witness :
  FieldToLogicalType (fun _ => None)
    {| field_type := MYSQL_TYPE_VAR_STRING; max_length := 20; decimals := 0;
       flags := BINARY_FLAG |}
  = Plain BLOB.
Proof.
  apply (FieldToLogicalType_string (fun _ => None)
           {| field_type := MYSQL_TYPE_VAR_STRING; max_length := 20;
              decimals := 0; flags := BINARY_FLAG |}).
  simpl. auto.
Defined.

(** ** The catalog set: what every reachable set keeps *)

Section CatalogSetMore.

(** The count of the discovery runs over calls without [ClearEntries]. *)
Lemma calls_load_calls cs : forall set,
  forallb (fun c => negb (is_clear c)) cs = true ->
  load_calls (calls set cs)
  = (load_calls set
     + if (negb (is_loaded set) && existsb is_read cs)%bool then 1 else 0)%nat.
Proof.
  induction cs as [|c cs IH]; intros set Hcs.
  { cbn. rewrite andb_false_r. lia. }
  cbn in Hcs. apply andb_prop in Hcs as [Hc Hcs].
  apply negb_true_iff in Hc.
  destruct (is_loaded set) eqn:El.
  { assert (forallb (fun c => negb (is_clear c)) (c :: cs) = true) as Hall
      by (cbn; by rewrite Hc).
    destruct (calls_loaded (c :: cs) set El Hall) as [_ ->]. cbn. lia. }
  change (calls set (c :: cs)) with (calls (call set c) cs).
  rewrite IH by done. cbn [negb andb existsb].
  destruct c; cbn [call is_read orb]; try done.
  - destruct (CreateEntry_flags set entry) as [-> ->]. by rewrite El.
  - unfold DropEntry. destruct (Query context (drop_query info)); cbn;
      by rewrite El.
  - rewrite GetEntry_state, load_if_needed_flags.
    rewrite load_if_needed_unloaded by done.
    destruct (LoadEntries_flags context (mark_loaded set)) as [_ ->].
    cbn. lia.
  - rewrite Scan_state, load_if_needed_flags.
    rewrite load_if_needed_unloaded by done.
    destruct (LoadEntries_flags context (mark_loaded set)) as [_ ->].
    cbn. lia.
Qed.



End CatalogSetMore.





(** X19: a [Scan] that does not raise runs the callback exactly once on
    every entry stored in the set that it leaves, and on nothing else. *)
Theorem Scan_visits_every_entry_once
    {A : Type} (cs : list Call) (context : ClientContext)
    (callback : CatalogEntry -> A -> A) (acc result : A) :
  let set := calls new_set cs in
  (Scan context set callback acc).1 = Ok result ->
  exists visited,
    result = foldr callback acc visited /\
    NoDup visited /\
    forall entry,
      entry ∈ visited <-> stored (Scan context set callback acc).2 entry.
Proof.
  intros set H.
  assert (keyed (Scan context set callback acc).2) as Hk.
  { rewrite Scan_state. apply load_if_needed_keyed, calls_keyed, new_set_keyed. }
  unfold Scan in *.
  destruct (load_if_needed context set) as [[u|e] after]; cbn [fst snd] in *;
    [|done].
  injection H as <-.
  exists ((case_insensitive_elements (entries after)).*2). split; [|split].
  - unfold case_insensitive_elements.
    rewrite map_fold_foldr, !foldr_fmap.
    apply foldr_ext; [by intros [l [k e]] b|done|done].
  - unfold case_insensitive_elements. rewrite <- list_fmap_compose.
    apply NoDup_fmap_2_strong; [|apply NoDup_map_to_list].
    intros [l1 [k1 e1]] [l2 [k2 e2]] H1 H2 Heq. cbn in Heq. subst e2.
    apply elem_of_map_to_list in H1, H2.
    destruct (Hk _ _ _ H1) as (-> & <- & _).
    by destruct (Hk _ _ _ H2) as (-> & <- & _).
  - intros entry. rewrite list_elem_of_fmap. split.
    + intros ([k e] & -> & Hin). by apply (keyed_stored after k e).
    + intros Hs. exists (name entry, entry). split; [done|].
      by apply stored_element.
Qed.

Lemma Scan_visits_every_entry_once_witness :
  let a := {| name := "a"; type := TABLE_ENTRY; oid := 1 |} in
  let b := {| name := "b"; type := TABLE_ENTRY; oid := 2 |} in
  exists visited,
    2%nat = foldr (fun _ n => S n) 0%nat visited /\
    NoDup visited /\
    forall entry,
      entry ∈ visited <->
      stored (Scan quiet (calls new_set [CallCreateEntry a; CallCreateEntry b])
                   (fun _ n => S n) 0%nat).2 entry.
Proof.
  intros a b.
  exact (Scan_visits_every_entry_once [CallCreateEntry a; CallCreateEntry b]
           quiet (fun _ n => S n) 0%nat 2%nat eq_refl).
Defined.

(** X20: over any calls without [ClearEntries], the discovery runs once
    when the set was not loaded and a [GetEntry] or [Scan] is among the
    calls, and not at all otherwise. *)
Theorem discovery_runs_at_most_once
    (set : MySQLCatalogSet) (cs : list Call) :
  forallb (fun c => negb (is_clear c)) cs = true ->
  load_calls (calls set cs)
  = (load_calls set
     + if (negb (is_loaded set) && existsb is_read cs)%bool then 1 else 0)%nat.
Proof. apply calls_load_calls. Qed.

Lemma discovery_runs_at_most_once_witness :
  load_calls
    (calls new_set
       [CallGetEntry quiet "a"; CallScan quiet; CallGetEntry quiet "b"])
  = 1%nat.
Proof.
  exact (discovery_runs_at_most_once new_set
           [CallGetEntry quiet "a"; CallScan quiet; CallGetEntry quiet "b"]
           eq_refl).
Defined.
